(** * cob: the Elo leaderboard of [script.js]

    A shallow embedding of the rating computation ([calculateElo]), of the
    two sorts over the battle array and of the detail lookup
    ([displayBattleDetails]), followed by the properties the specification
    states about them.

    Modelling choices.
    - A JavaScript number is an element of a type [num] that carries the
      arithmetic the script uses (class [JsNum]).  Everything structural is
      proved for every such arithmetic, IEEE doubles included; the numeric
      facts are proved for the instance of exact real arithmetic.
    - [eloScores] is a JS object used as a map from model name to a fresh
      entry object: a [gmap string elo_entry].  Names are ordinary property
      names (the magic key [__proto__] is outside the model).
    - A thrown [TypeError] (reading a property of [undefined]) is [None] in
      the option monad; the script's functions are shown never to take it.
    - [battles.sort(...)] sorts the caller's array in place, so the
      functions return the array as they leave it next to their result.
    - [new Date(s) - new Date(s')] is the difference of two time values;
      a battle carries the time value its [timestamp_start] parses to
      (every start time is taken to parse: with an invalid date the
      comparator is inconsistent and the order is up to the engine).
    - [Array.prototype.sort] is the stable sort ECMAScript 2019 requires. *)

From Stdlib Require Import ZArith Reals Lra Lia Ascii.
From stdpp Require Import gmap strings list fin_maps sorting.

Local Open Scope Z_scope.

(** ** Numbers *)

Class JsNum (num : Type) := {
  num_of_Z : Z → num;            (* an integer literal *)
  num_half : num;                (* the literal [0.5] *)
  num_add : num → num → num;
  num_sub : num → num → num;
  num_mul : num → num → num;
  num_div : num → num → num;
  Math_pow : num → num → num
}.

Declare Scope num_scope.
Delimit Scope num_scope with num.
Infix "+" := num_add : num_scope.
Infix "-" := num_sub : num_scope.
Infix "*" := num_mul : num_scope.
Infix "/" := num_div : num_scope.

(** Exact real arithmetic; [Math.pow(b, x)] is [b^x = exp (x * ln b)]. *)
#[export] Instance R_JsNum : JsNum R := {|
  num_of_Z := IZR;
  num_half := (1 / 2)%R;
  num_add := Rplus;
  num_sub := Rminus;
  num_mul := Rmult;
  num_div := Rdiv;
  Math_pow := Rpower
|}.

(** ** The battle records of [data.json] *)

Record model_info := { name : string }.

Record battle := {
  battle_id : string;
  model_A_info : model_info;
  model_B_info : model_info;
  timestamp_start : Z;
  timestamp_end : Z;
  plaintext_color : string;
  (* [None]: the field is absent, [null] or not a string *)
  battle_outcome : option string
}.

#[export] Instance model_info_eq_dec : EqDecision model_info.
Proof. solve_decision. Defined.
#[export] Instance battle_eq_dec : EqDecision battle.
Proof. solve_decision. Defined.

(** ** Arrays and sets *)

(** [Array.prototype.sort(compareFn)]: the stable sort of the array by a
    consistent comparator ([compareFn a b > 0] puts [a] after [b]).  An
    insertion sort, each element entering in front of the sorted rest of
    the array and moving right past the elements it is greater than. *)
Fixpoint sort_insert {A} (compareFn : A → A → Z) (x : A) (l : list A) : list A :=
  match l with
  | [] => [x]
  | y :: l' =>
      if 0 <? compareFn x y then y :: sort_insert compareFn x l'
      else x :: y :: l'
  end.

Fixpoint Array_sort {A} (compareFn : A → A → Z) (l : list A) : list A :=
  match l with
  | [] => []
  | x :: l' => sort_insert compareFn x (Array_sort compareFn l')
  end.

(** [Set.prototype.add]: a set keeps its elements in insertion order. *)
Definition Set_add (x : string) (s : list string) : list string :=
  if decide (x ∈ s) then s else s ++ [x].

(** [forEach] with a body that may throw. *)
Fixpoint forEach {S A} (body : S → A → option S) (s : S) (l : list A) : option S :=
  match l with
  | [] => Some s
  | x :: l' => s' ← body s x; forEach body s' l'
  end.

(** ** The rating engine *)

Section Elo.
Context {num : Type} `{JsNum num}.

Record elo_entry := { rating : num; battlesPlayed : nat }.

Definition ELO_K_FACTOR : num := num_of_Z 32.
Definition ELO_DEFAULT_RATING : num := num_of_Z 1500.

(** [{ rating: ELO_DEFAULT_RATING, battlesPlayed: 0 }] *)
Definition fresh_entry : elo_entry :=
  {| rating := ELO_DEFAULT_RATING; battlesPlayed := 0 |}.

Definition modelA (b : battle) : string := name (model_A_info b).
Definition modelB (b : battle) : string := name (model_B_info b).

(** Lines 34-37: the set of the names in both slots of every battle. *)
Definition modelNames (battles : list battle) : list string :=
  foldl (λ s b, Set_add (modelB b) (Set_add (modelA b) s)) [] battles.

(** Lines 39-41. *)
Definition init_eloScores (names : list string) : gmap string elo_entry :=
  foldl (λ t n, <[n := fresh_entry]> t) ∅ names.

(** Line 44: the comparator of the rating engine, ascending start time. *)
Definition by_start_asc (a b : battle) : Z := timestamp_start a - timestamp_start b.

(** Lines 51-52: [if (!eloScores[m]) eloScores[m] = {...}]. *)
Definition ensure (m : string) (t : gmap string elo_entry) : gmap string elo_entry :=
  match t !! m with
  | Some _ => t
  | None => <[m := fresh_entry]> t
  end.

(** Lines 57-58: [1 / (1 + Math.pow(10, (other - own) / 400))]. *)
Definition expected (own other : num) : num :=
  (num_of_Z 1 / (num_of_Z 1 + Math_pow (num_of_Z 10) ((other - own) / num_of_Z 400)))%num.

(** Lines 62-71: the pair [(scoreA, scoreB)]. *)
Definition scores (b : battle) : num * num :=
  if decide (battle_outcome b = Some (modelA b +:+ "_wins")) then
    (num_of_Z 1, num_of_Z 0)
  else if decide (battle_outcome b = Some (modelB b +:+ "_wins")) then
    (num_of_Z 0, num_of_Z 1)
  else
    (num_half, num_half).

(** [eloScores[m].rating += d]: reads the entry as it is now. *)
Definition add_rating (m : string) (d : num) (t : gmap string elo_entry)
  : option (gmap string elo_entry) :=
  e ← t !! m;
  Some (<[m := {| rating := (rating e + d)%num; battlesPlayed := battlesPlayed e |}]> t).

(** [eloScores[m].battlesPlayed++] *)
Definition incr_played (m : string) (t : gmap string elo_entry)
  : option (gmap string elo_entry) :=
  e ← t !! m;
  Some (<[m := {| rating := rating e; battlesPlayed := S (battlesPlayed e) |}]> t).

(** Lines 46-78: the body of the second [forEach]. *)
Definition process_battle (t : gmap string elo_entry) (b : battle)
  : option (gmap string elo_entry) :=
  let t := ensure (modelA b) t in
  let t := ensure (modelB b) t in
  eA ← t !! modelA b;
  eB ← t !! modelB b;
  let ratingA := rating eA in
  let ratingB := rating eB in
  let expectedA := expected ratingA ratingB in
  let expectedB := expected ratingB ratingA in
  let '(scoreA, scoreB) := scores b in
  t ← add_rating (modelA b) (ELO_K_FACTOR * (scoreA - expectedA))%num t;
  t ← add_rating (modelB b) (ELO_K_FACTOR * (scoreB - expectedB))%num t;
  t ← incr_played (modelA b) t;
  incr_played (modelB b) t.

(** Lines 29-80.  The result is the returned [eloScores] together with the
    caller's [battles] array as the call leaves it. *)
Definition calculateElo (battles : list battle)
  : option (gmap string elo_entry * list battle) :=
  let eloScores := init_eloScores (modelNames battles) in
  let battles := Array_sort by_start_asc battles in
  eloScores ← forEach process_battle eloScores battles;
  Some (eloScores, battles).

(** The entry of a name, a fresh one while the table has none. *)
Definition entry_of (t : gmap string elo_entry) (n : string) : elo_entry :=
  default fresh_entry (t !! n).

(** One participant's update, written on total tables. *)
Definition bump (m : string) (d : num) (f : string → elo_entry)
  : string → elo_entry :=
  λ n, if decide (n = m)
       then {| rating := (rating (f n) + d)%num; battlesPlayed := S (battlesPlayed (f n)) |}
       else f n.

(** The rating change of slot A and of slot B in a battle, from the
    ratings the table [f] holds before the battle. *)
Definition deltaA (f : string → elo_entry) (b : battle) : num :=
  (ELO_K_FACTOR *
     ((scores b).1 - expected (rating (f (modelA b))) (rating (f (modelB b)))))%num.
Definition deltaB (f : string → elo_entry) (b : battle) : num :=
  (ELO_K_FACTOR *
     ((scores b).2 - expected (rating (f (modelB b))) (rating (f (modelA b)))))%num.

(** The update of one battle as the specification words it: expected
    scores from the ratings before the battle, then
    [rating += kFactor * (actualScore - expectedScore)] and one more game
    for the participant in slot A and for the one in slot B. *)
Definition manual_update (f : string → elo_entry) (b : battle)
  : string → elo_entry :=
  bump (modelB b) (deltaB f b) (bump (modelA b) (deltaA f b) f).

(** Every participant starts fresh; the battles are applied one by one. *)
Definition manual_ratings (chron : list battle) : string → elo_entry :=
  foldl manual_update (λ _, fresh_entry) chron.

(** The table after one battle as a pair of writes. *)
Definition apply_battle (t : gmap string elo_entry) (b : battle)
  : gmap string elo_entry :=
  <[modelB b := manual_update (entry_of t) b (modelB b)]>
    (<[modelA b := manual_update (entry_of t) b (modelA b)]> t).

End Elo.

Arguments elo_entry num : clear implicits.

(** ** The battle catalogue *)

(** Line 110: the comparator of the timeline, descending start time. *)
Definition by_start_desc (a b : battle) : Z := timestamp_start b - timestamp_start a.

(** Lines 105-124, with the list element present.  The items are the
    [textContent] of each [li]; the second component is the caller's
    [battles] array as the call leaves it: the sort works on the copy
    [[...battles]]. *)
Definition li_text (b : battle) : string :=
  "Battle ID: " +:+ battle_id b +:+ " (" +:+ name (model_A_info b) +:+ " vs "
    +:+ name (model_B_info b) +:+ ") - Outcome: " +:+
    match battle_outcome b with
    | Some (String c s) => String c s
    | _ => "N/A"
    end.

Definition displayBattleList (battles : list battle) : list string * list battle :=
  let sortedBattles := Array_sort by_start_desc battles in
  (match sortedBattles with
   | [] => ["No battles recorded yet."]
   | _ => li_text <$> sortedBattles
   end, battles).

(** [battles.find(b => b.battle_id === battleId)] *)
Definition find_battle (battleId : string) (battles : list battle) : option battle :=
  List.find (λ b, bool_decide (battle_id b = battleId)) battles.

Section Details.
(** Lines 145-192, the markup of a battle that was found; it goes through
    the locale ([toLocaleString]) and is left abstract. *)
Variable detailsHtml : battle → string.

(** Lines 137-195.  The state is the [innerHTML] of the details element,
    [None] when the page has no such element. *)
Definition displayBattleDetails (battleId : string) (battles : list battle)
    (battleDetailsContentDiv : option string) : option string :=
  match battleDetailsContentDiv with
  | None => None
  | Some _ =>
      match find_battle battleId battles with
      | None => Some "<p>Battle not found.</p>"
      | Some battle => Some (detailsHtml battle)
      end
  end.
End Details.

(** ** The rest of the page *)

(** Lines 126-134, on the string [str + ""].  The five characters are
    ASCII, so going through the bytes of the text replaces exactly the
    code units the regular expression matches. *)
Definition escape_char (c : ascii) : string :=
  if decide (c = "&"%char) then "&amp;"
  else if decide (c = "<"%char) then "&lt;"
  else if decide (c = ">"%char) then "&gt;"
  else if decide (c = "034"%char) then "&quot;"
  else if decide (c = "'"%char) then "&#39;"
  else String c EmptyString.

Fixpoint escapeHtml (str : string) : string :=
  match str with
  | EmptyString => EmptyString
  | String c str' => escape_char c +:+ escapeHtml str'
  end.

(** What the leaderboard needs of a number beyond [JsNum]: the sign a
    comparator result is read by ([1], [0] or [-1]; [0] for [NaN]), and
    [Math.round]. *)
Class JsNumView (num : Type) := {
  num_sgn : num → Z;
  Math_round : num → num
}.

Definition R_sgn (x : R) : Z :=
  match total_order_T 0 x with
  | inleft (left _) => 1
  | inleft (right _) => 0
  | inright _ => -1
  end.

(** [Math.round] rounds to the nearest integer, halves upwards. *)
#[export] Instance R_JsNumView : JsNumView R := {|
  num_sgn := R_sgn;
  Math_round := λ x, IZR (Int_part (x + 1 / 2))
|}.

#[export] Instance R_eq_dec : EqDecision R := Req_dec_T.

Section Page.
Context {num : Type} `{JsNum num} `{JsNumView num}.

(** A row of the leaderboard body: rank, name, rounded rating and games
    played (the [textContent] of its four cells), or the one cell that
    spans the table. *)
Inductive elo_row :=
  | ModelRow (rank : nat) (model : string) (shown : num) (played : nat)
  | MessageRow (text : string).

(** Line 87: the comparator of the leaderboard, descending rating. *)
Definition by_rating_desc (a b : string * elo_entry num) : Z :=
  num_sgn (rating b.2 - rating a.2)%num.

(** Lines 82-103, with the table body present.  [entries] is
    [Object.entries(eloScores)]: the entries in the key order of the
    object. *)
Definition displayEloTable (entries : list (string * elo_entry num)) : list elo_row :=
  let sortedModels := Array_sort by_rating_desc entries in
  match sortedModels with
  | [] => [MessageRow "No ELO data available. Run battles to generate scores."]
  | _ =>
      imap (λ index '(name, data),
              ModelRow (index + 1) name (Math_round (rating data)) (battlesPlayed data))
           sortedModels
  end.

(** What [fetch('data.json')] resolves to: the status and, when the body
    is valid JSON, the array it holds. *)
Record response := {
  status : Z;
  json : option (list battle)
}.

(** [response.ok] *)
Definition ok (r : response) : bool := (200 <=? status r) && (status r <=? 299).

Definition load_error : string :=
  "<p>Error loading battle data. Please ensure 'data.json' exists and is valid. Run the Python backend to generate data.</p>".

Definition no_data : string :=
  "<p>No battle data found. Run the Python backend script (benchmark.py) to generate data, then refresh this page.</p>".

(** Lines 9-27.  [fetched] is [None] when [fetch] rejects.  The result is
    the array returned and the [innerHTML] of the details element after
    the call. *)
Definition fetchData (fetched : option response) (details : string)
  : list battle * string :=
  match fetched with
  | None => ([], load_error)
  | Some r =>
      if ok r then
        match json r with
        | Some battles => (battles, details)
        | None => ([], load_error)
        end
      else if status r =? 404 then ([], details)
      else ([], load_error)
  end.

(** A row of the leaderboard for the entry at [index] of the sorted list. *)
Definition elo_row_of (index : nat) (entry : string * elo_entry num) : elo_row :=
  ModelRow (index + 1) entry.1 (Math_round (rating entry.2)) (battlesPlayed entry.2).

(** The three parts of the page the script writes. *)
Record page := {
  page_table : list elo_row;
  page_list : list string;
  page_details : string
}.

(** The key order of an object is not part of the table: the enumeration
    [Object.entries] makes of it is a parameter. *)
Variable Object_entries : gmap string (elo_entry num) → list (string * elo_entry num).

(** Lines 197-209; [None] is an uncaught exception. *)
Definition init (fetched : option response) (p : page) : option page :=
  let '(battles, details) := fetchData fetched (page_details p) in
  match battles with
  | _ :: _ =>
      '(eloScores, battles) ← calculateElo battles;
      Some {| page_table := displayEloTable (Object_entries eloScores);
              page_list := (displayBattleList battles).1;
              page_details := details |}
  | [] =>
      Some {| page_table := displayEloTable [];
              page_list := (displayBattleList []).1;
              page_details := no_data |}
  end.

End Page.

Arguments elo_row num : clear implicits.
Arguments page num : clear implicits.

(** ** Notions the statements use *)

(** A battle record for examples. *)
Definition game (id a b : string) (ts : Z) (outcome : option string) : battle :=
  {| battle_id := id;
     model_A_info := {| name := a |};
     model_B_info := {| name := b |};
     timestamp_start := ts; timestamp_end := ts + 500;
     plaintext_color := "c0ffee";
     battle_outcome := outcome |}.

(** An ascending comparator on a key, and the orders it sorts into. *)
Definition by_key {A} (key : A → Z) (a b : A) : Z := key a - key b.
Definition key_le {A} (key : A → Z) (a b : A) : Prop := key a ≤ key b.
Definition key_lt {A} (key : A → Z) (a b : A) : Prop := key a < key b.

(** [n] is named in a slot of some battle of the collection. *)
Definition participant (n : string) (battles : list battle) : Prop :=
  ∃ b, b ∈ battles ∧ (n = modelA b ∨ n = modelB b).

(** The characters [escapeHtml] replaces. *)
Definition markup_chars : list ascii := ["&"; "<"; ">"; "034"; "'"]%char.

(** The number of slots a name fills in a collection. *)
Definition slots_filled (n : string) (battles : list battle) : nat :=
  length (filter (λ b, modelA b = n) battles) + length (filter (λ b, modelB b = n) battles).

(** The same battle with the two models in each other's slot. *)
Definition swap_slots (b : battle) : battle :=
  {| battle_id := battle_id b;
     model_A_info := model_B_info b;
     model_B_info := model_A_info b;
     timestamp_start := timestamp_start b;
     timestamp_end := timestamp_end b;
     plaintext_color := plaintext_color b;
     battle_outcome := battle_outcome b |}.

(** The sum of a measure [μ] over the entries of a table. *)
Definition total {E M} (op : M → M → M) (zero : M) (μ : E → M) (t : gmap string E) : M :=
  map_fold (λ _ e acc, op (μ e) acc) zero t.

(** The sum of [battlesPlayed] over the entries of the table. *)
Definition games_total {num} (t : gmap string (elo_entry num)) : nat :=
  map_fold (λ _ e acc, battlesPlayed e + acc)%nat 0%nat t.

(** The sum of [rating] over the entries of the table. *)
Definition rating_total (t : gmap string (elo_entry R)) : R :=
  map_fold (λ _ e acc, rating e + acc)%R 0%R t.

(** The sum of the distances of the ratings from the default rating. *)
Definition excess (t : gmap string (elo_entry R)) : R :=
  map_fold (λ _ e acc, (rating e - 1500) + acc)%R 0%R t.


(** No rating is further from 1500 than 32 points per game played. *)
Definition within_K (f : string → elo_entry R) : Prop :=
  ∀ n, (1500 - 32 * INR (battlesPlayed (f n)) <= rating (f n)
        <= 1500 + 32 * INR (battlesPlayed (f n)))%R.

(** * Properties *)

(** ** The sort *)

Section SortFacts.
Context {A : Type} (key : A → Z).

Lemma sort_insert_Permutation (cmp : A → A → Z) x l :
  sort_insert cmp x l ≡ₚ x :: l.
Proof.
  induction l as [|y l IH]; simpl; [done|].
  destruct (0 <? cmp x y); [|done].
  rewrite IH. apply Permutation_swap.
Qed.

Lemma Array_sort_Permutation (cmp : A → A → Z) l : Array_sort cmp l ≡ₚ l.
Proof.
  induction l as [|x l IH]; simpl; [done|].
  by rewrite sort_insert_Permutation, IH.
Qed.

Lemma sort_insert_sorted x l :
  StronglySorted (key_le key) l → StronglySorted (key_le key) (sort_insert (by_key key) x l).
Proof.
  induction 1 as [|y l Hl IH Hy]; simpl.
  { repeat constructor. }
  unfold by_key at 1. destruct (Z.ltb_spec 0 (key x - key y)) as [Hlt|Hle].
  - constructor; [done|].
    rewrite sort_insert_Permutation. constructor; [unfold key_le; lia|done].
  - constructor; [by constructor|].
    constructor; [unfold key_le; lia|].
    eapply Forall_impl; [exact Hy|]. unfold key_le. intros z Hz. lia.
Qed.

Lemma Array_sort_sorted l : StronglySorted (key_le key) (Array_sort (by_key key) l).
Proof.
  induction l as [|x l IH]; simpl; [constructor|]. by apply sort_insert_sorted.
Qed.

(** Stability: the elements of one key keep their order. *)
Lemma sort_insert_stable k x l :
  filter (λ a, key a = k) (sort_insert (by_key key) x l) = filter (λ a, key a = k) (x :: l).
Proof.
  induction l as [|y l IH]; simpl; [done|].
  unfold by_key at 1. destruct (Z.ltb_spec 0 (key x - key y)) as [Hlt|Hle]; [|done].
  rewrite filter_cons, IH, !filter_cons.
  destruct (decide (key y = k)), (decide (key x = k)); try done. lia.
Qed.

Lemma Array_sort_stable k l :
  filter (λ a, key a = k) (Array_sort (by_key key) l) = filter (λ a, key a = k) l.
Proof.
  induction l as [|x l IH]; simpl; [done|].
  by rewrite sort_insert_stable, !filter_cons, IH.
Qed.

(** A sorted array is left as it is. *)
Lemma Array_sort_id l : StronglySorted (key_le key) l → Array_sort (by_key key) l = l.
Proof.
  induction 1 as [|x l Hl IH Hx]; simpl; [done|].
  rewrite IH. destruct l as [|y l]; simpl; [done|].
  apply Forall_cons_1 in Hx as [Hxy _]. unfold by_key, key_le in *.
  destruct (Z.ltb_spec 0 (key x - key y)); [lia|done].
Qed.

Lemma Array_sort_idemp l : Array_sort (by_key key) (Array_sort (by_key key) l) = Array_sort (by_key key) l.
Proof. apply Array_sort_id, Array_sort_sorted. Qed.

Lemma key_lt_le l : StronglySorted (key_lt key) l → StronglySorted (key_le key) l.
Proof.
  induction 1 as [|x l Hl IH Hx]; constructor; [done|].
  eapply Forall_impl; [exact Hx|]. unfold key_lt, key_le. intros; lia.
Qed.

Lemma key_le_lt l :
  NoDup (key <$> l) → StronglySorted (key_le key) l → StronglySorted (key_lt key) l.
Proof.
  intros Hnd. induction 1 as [|x l Hl IH Hx]; [constructor|].
  rewrite fmap_cons in Hnd. apply NoDup_cons in Hnd as [Hx' Hnd].
  constructor; [by apply IH|].
  apply Forall_forall. intros y Hy.
  rewrite Forall_forall in Hx. specialize (Hx y Hy).
  assert (key x ≠ key y).
  { intros Heq. apply Hx'. rewrite Heq. by apply list_elem_of_fmap_2. }
  unfold key_lt, key_le in *. lia.
Qed.

Lemma key_lt_NoDup l : StronglySorted (key_lt key) l → NoDup (key <$> l).
Proof.
  induction 1 as [|x l Hl IH Hx]; [constructor|].
  rewrite fmap_cons. apply NoDup_cons. split; [|done].
  intros Hin. apply list_elem_of_fmap in Hin as (y & Hk & Hy).
  rewrite Forall_forall in Hx. specialize (Hx y Hy). unfold key_lt in Hx. lia.
Qed.

(** With distinct keys the order of the input array does not matter: every
    arrangement of a chronological list sorts back to it. *)
Lemma Array_sort_chron l chron :
  l ≡ₚ chron → StronglySorted (key_lt key) chron → Array_sort (by_key key) l = chron.
Proof.
  intros Hp Hc.
  assert (Hs : StronglySorted (key_lt key) (Array_sort (by_key key) l)).
  { apply key_le_lt; [|apply Array_sort_sorted].
    rewrite Array_sort_Permutation, Hp. by apply key_lt_NoDup. }
  eapply (StronglySorted_unique_strong (key_lt key)); [|done..|].
  - intros a b _ _ Hab Hba. unfold key_lt in *. lia.
  - by rewrite Array_sort_Permutation.
Qed.

End SortFacts.

(** ** One battle *)

Section Manual.
Context {num : Type} `{JsNum num}.

Lemma process_battle_closed (t : gmap string (elo_entry num)) b :
  process_battle t b =
    Some (<[modelB b := manual_update (entry_of t) b (modelB b)]>
            (<[modelA b := manual_update (entry_of t) b (modelA b)]> t)).
Proof.
  unfold process_battle, manual_update, deltaA, deltaB, add_rating, incr_played,
    ensure, bump, entry_of.
  destruct (scores b) as [sA sB]; simpl.
  destruct (decide (modelA b = modelB b)) as [->|Hne].
  - destruct (t !! modelB b) as [e|] eqn:He; simplify_map_eq; simpl;
      rewrite ?decide_True by done; simplify_map_eq; simpl;
      f_equal; apply map_eq; intros i;
      destruct (decide (i = modelB b)); simplify_map_eq; done.
  - destruct (t !! modelA b) as [eA|] eqn:HeA, (t !! modelB b) as [eB|] eqn:HeB;
      simplify_map_eq; simpl;
      rewrite ?decide_True, ?(decide_False (P := modelB b = modelA b)) by done;
      simplify_map_eq; simpl;
      f_equal; apply map_eq; intros i;
      destruct (decide (i = modelB b)), (decide (i = modelA b)); simplify_map_eq; done.
Qed.

End Manual.

(** ** The whole computation *)

Lemma participant_nil n : ¬ participant n [].
Proof. intros (b & Hb & _). by apply not_elem_of_nil in Hb. Qed.

Lemma participant_cons n b bs :
  participant n (b :: bs) ↔ (n = modelA b ∨ n = modelB b) ∨ participant n bs.
Proof.
  split.
  - intros (b' & Hb' & Hn). apply elem_of_cons in Hb' as [->|Hb']; [by left|].
    right. by exists b'.
  - intros [Hn|(b' & Hb' & Hn)].
    + exists b. split; [left|done].
    + exists b'. split; [by right|done].
Qed.

Lemma participant_Permutation n bs bs' :
  bs ≡ₚ bs' → participant n bs → participant n bs'.
Proof. intros Hp (b & Hb & Hn). exists b. by rewrite <- Hp. Qed.

Lemma elem_of_Set_add n x s : n ∈ Set_add x s ↔ n = x ∨ n ∈ s.
Proof.
  unfold Set_add. case_decide as Hx.
  - split; [by right|]. by intros [->|].
  - rewrite elem_of_app, list_elem_of_singleton. tauto.
Qed.

Lemma NoDup_Set_add x s : NoDup s → NoDup (Set_add x s).
Proof.
  intros Hs. unfold Set_add. case_decide as Hx; [done|].
  apply NoDup_app. split_and!; [done| |apply NoDup_singleton].
  intros y Hy ->%list_elem_of_singleton. done.
Qed.

Lemma elem_of_collect n bs s :
  n ∈ foldl (λ s b, Set_add (modelB b) (Set_add (modelA b) s)) s bs
  ↔ n ∈ s ∨ participant n bs.
Proof.
  revert s. induction bs as [|b bs IH]; intros s; simpl.
  - split; [by left|]. intros [|Hp]; [done|]. by apply participant_nil in Hp.
  - rewrite IH, !elem_of_Set_add, participant_cons. tauto.
Qed.

Lemma NoDup_collect bs s :
  NoDup s → NoDup (foldl (λ s b, Set_add (modelB b) (Set_add (modelA b) s)) s bs).
Proof.
  revert s. induction bs as [|b bs IH]; intros s Hs; simpl; [done|].
  by apply IH, NoDup_Set_add, NoDup_Set_add.
Qed.

Lemma elem_of_modelNames n bs : n ∈ modelNames bs ↔ participant n bs.
Proof.
  unfold modelNames. rewrite elem_of_collect. split; [|by right].
  intros [Hn|]; [|done]. by apply not_elem_of_nil in Hn.
Qed.

Lemma NoDup_modelNames bs : NoDup (modelNames bs).
Proof. apply NoDup_collect, NoDup_nil_2. Qed.

Lemma modelNames_Permutation bs bs' : bs ≡ₚ bs' → modelNames bs ≡ₚ modelNames bs'.
Proof.
  intros Hp. apply NoDup_Permutation; [apply NoDup_modelNames..|].
  intros n. rewrite !elem_of_modelNames.
  split; apply participant_Permutation; [done|by symmetry].
Qed.

Section Whole.
Context {num : Type} `{JsNum num}.

Lemma forEach_process_battle (t : gmap string (elo_entry num)) bs :
  forEach process_battle t bs = Some (foldl apply_battle t bs).
Proof.
  revert t. induction bs as [|b bs IH]; intros t; simpl; [done|].
  rewrite process_battle_closed. simpl. apply IH.
Qed.

Lemma calculateElo_closed bs :
  calculateElo bs =
    Some (foldl apply_battle (init_eloScores (modelNames bs)) (Array_sort by_start_asc bs),
          Array_sort by_start_asc bs).
Proof. unfold calculateElo. by rewrite forEach_process_battle. Qed.

Lemma lookup_init_from (t : gmap string (elo_entry num)) names n :
  foldl (λ t n, <[n := fresh_entry]> t) t names !! n =
    if decide (n ∈ names) then Some fresh_entry else t !! n.
Proof.
  revert t. induction names as [|m names IH]; intros t; cbn [foldl].
  { case_decide as Hn; [|done]. by apply not_elem_of_nil in Hn. }
  rewrite IH. destruct (decide (n ∈ names)) as [Hin|Hnin].
  - rewrite decide_True; [done|by right].
  - destruct (decide (n = m)) as [->|Hne].
    + rewrite decide_True by left. apply lookup_insert_eq.
    + rewrite decide_False, lookup_insert_ne; [done..|].
      intros [?|?]%elem_of_cons; done.
Qed.

Lemma lookup_init_eloScores names n :
  init_eloScores names !! n = if decide (n ∈ names) then Some fresh_entry else None.
Proof. unfold init_eloScores. by rewrite lookup_init_from, lookup_empty. Qed.

Lemma init_eloScores_Permutation names names' :
  names ≡ₚ names' → init_eloScores names = init_eloScores names'.
Proof.
  intros Hp. apply map_eq. intros n. rewrite !lookup_init_eloScores.
  destruct (decide (n ∈ names)) as [Hn|Hn]; rewrite Hp in Hn.
  - by rewrite decide_True.
  - by rewrite decide_False.
Qed.

Lemma entry_of_init names n : entry_of (init_eloScores names) n = fresh_entry.
Proof. unfold entry_of. rewrite lookup_init_eloScores. by case_decide. Qed.

Lemma manual_update_ext (f g : string → elo_entry num) b :
  (∀ n, f n = g n) → ∀ n, manual_update f b n = manual_update g b n.
Proof. intros Hfg n. unfold manual_update, deltaA, deltaB, bump. by rewrite !Hfg. Qed.

Lemma entry_of_apply_battle (t : gmap string (elo_entry num)) b n :
  entry_of (apply_battle t b) n = manual_update (entry_of t) b n.
Proof.
  unfold apply_battle. unfold entry_of at 1.
  destruct (decide (n = modelB b)) as [->|HnB]; [by rewrite lookup_insert_eq|].
  rewrite lookup_insert_ne by done.
  destruct (decide (n = modelA b)) as [->|HnA]; [by rewrite lookup_insert_eq|].
  rewrite lookup_insert_ne by done.
  unfold manual_update, bump. by rewrite !decide_False by done.
Qed.


Lemma manual_update_A (f : string → elo_entry num) b :
  modelA b ≠ modelB b →
  manual_update f b (modelA b) =
    {| rating := (rating (f (modelA b)) + deltaA f b)%num;
       battlesPlayed := S (battlesPlayed (f (modelA b))) |}.
Proof.
  intros Hne. unfold manual_update, bump.
  by rewrite decide_False, decide_True by done.
Qed.

Lemma manual_update_B (f : string → elo_entry num) b :
  modelA b ≠ modelB b →
  manual_update f b (modelB b) =
    {| rating := (rating (f (modelB b)) + deltaB f b)%num;
       battlesPlayed := S (battlesPlayed (f (modelB b))) |}.
Proof.
  intros Hne. unfold manual_update, bump.
  by rewrite decide_True, decide_False by done.
Qed.

Lemma manual_update_self (f : string → elo_entry num) b :
  modelA b = modelB b →
  manual_update f b (modelB b) =
    {| rating := (rating (f (modelB b)) + deltaA f b + deltaB f b)%num;
       battlesPlayed := S (S (battlesPlayed (f (modelB b)))) |}.
Proof.
  intros Heq. unfold manual_update, bump. rewrite <- Heq.
  by rewrite !decide_True by done.
Qed.

Lemma manual_update_other (f : string → elo_entry num) b n :
  n ≠ modelA b → n ≠ modelB b → manual_update f b n = f n.
Proof. intros HA HB. unfold manual_update, bump. by rewrite !decide_False by done. Qed.

Lemma entry_of_insert_eq (t : gmap string (elo_entry num)) m e :
  entry_of (<[m := e]> t) m = e.
Proof. unfold entry_of. by rewrite lookup_insert_eq. Qed.

Lemma entry_of_insert_ne (t : gmap string (elo_entry num)) m n e :
  m ≠ n → entry_of (<[m := e]> t) n = entry_of t n.
Proof. intros Hne. unfold entry_of. by rewrite lookup_insert_ne. Qed.

Lemma entry_of_foldl (t : gmap string (elo_entry num)) f bs :
  (∀ n, entry_of t n = f n) →
  ∀ n, entry_of (foldl apply_battle t bs) n = foldl manual_update f bs n.
Proof.
  revert t f. induction bs as [|b bs IH]; intros t f Htf n; simpl; [done|].
  apply IH. intros m. rewrite entry_of_apply_battle. by apply manual_update_ext.
Qed.

Lemma is_Some_apply_battle (t : gmap string (elo_entry num)) b n :
  is_Some (apply_battle t b !! n) ↔ (n = modelA b ∨ n = modelB b) ∨ is_Some (t !! n).
Proof.
  unfold apply_battle. rewrite !lookup_insert_is_Some.
  assert (HA : modelA b = n ↔ n = modelA b) by (split; congruence).
  assert (HB : modelB b = n ↔ n = modelB b) by (split; congruence).
  rewrite HA, HB.
  destruct (decide (n = modelB b)), (decide (n = modelA b)); tauto.
Qed.

Lemma is_Some_foldl (t : gmap string (elo_entry num)) bs n :
  is_Some (foldl apply_battle t bs !! n) ↔ is_Some (t !! n) ∨ participant n bs.
Proof.
  revert t. induction bs as [|b bs IH]; intros t; simpl.
  - split; [by left|]. intros [|Hp]; [done|]. by apply participant_nil in Hp.
  - rewrite IH, is_Some_apply_battle, participant_cons. tauto.
Qed.

(** The returned table holds exactly the participants, each with the entry
    the one-by-one application over the processing order gives it. *)
Lemma lookup_calculateElo bs t bs' n :
  calculateElo bs = Some (t, bs') →
  t !! n = if decide (n ∈ modelNames bs) then Some (manual_ratings bs' n) else None.
Proof.
  rewrite calculateElo_closed. intros [= <- <-].
  set (t := foldl _ _ _).
  assert (Hdom : is_Some (t !! n) ↔ n ∈ modelNames bs).
  { unfold t. rewrite is_Some_foldl, lookup_init_eloScores.
    split.
    - intros [Hs|Hp].
      + case_decide as Hn; [done|by destruct Hs].
      + apply elem_of_modelNames.
        eapply participant_Permutation; [apply Array_sort_Permutation|done].
    - intros Hp. left. by rewrite decide_True. }
  assert (Hent : entry_of t n = manual_ratings (Array_sort by_start_asc bs) n).
  { apply entry_of_foldl. intros m. apply entry_of_init. }
  case_decide as Hn.
  - apply Hdom in Hn as [e He]. unfold entry_of in Hent. rewrite He in Hent |- *.
    simpl in Hent. by rewrite Hent.
  - apply eq_None_not_Some. by rewrite Hdom.
Qed.

Lemma size_calculateElo bs (t : gmap string (elo_entry num)) bs' :
  calculateElo bs = Some (t, bs') → size t = length (modelNames bs).
Proof.
  intros Hc.
  rewrite <- (size_dom (D := gset string)).
  rewrite <- (size_list_to_set (C := gset string)) by apply NoDup_modelNames.
  f_equal. apply set_eq. intros n.
  rewrite elem_of_dom, elem_of_list_to_set, (lookup_calculateElo _ _ _ n Hc).
  case_decide; [|by split; [intros []|]]. by split.
Qed.

End Whole.

(** ** Sums over the table *)

Section Totals.
Context {E M : Type} (op : M → M → M) (zero : M) (μ : E → M) (fresh : E).
Hypothesis op_comm : ∀ x y, op x y = op y x.
Hypothesis op_assoc : ∀ x y z, op x (op y z) = op (op x y) z.
Hypothesis μ_fresh : μ fresh = zero.
Hypothesis op_zero : ∀ x, op x zero = x.

Lemma total_empty : total op zero μ ∅ = zero.
Proof. apply map_fold_empty. Qed.

Lemma total_insert_None t m e :
  t !! m = None → total op zero μ (<[m := e]> t) = op (μ e) (total op zero μ t).
Proof.
  intros Hm. unfold total. apply (map_fold_insert_L (λ _ e acc, op (μ e) acc)); [|done].
  intros _ _ z1 z2 y _ _ _. by rewrite !op_assoc, (op_comm (μ z1)).
Qed.

Lemma total_delete t m e :
  t !! m = Some e → total op zero μ t = op (μ e) (total op zero μ (delete m t)).
Proof.
  intros Hm. unfold total. apply (map_fold_delete_L (λ _ e acc, op (μ e) acc)); [|done].
  intros _ _ z1 z2 y _ _ _. by rewrite !op_assoc, (op_comm (μ z1)).
Qed.

(** Writing an entry: the new one comes in for the old one, or for
    nothing when the name is new. *)
Lemma total_insert t m e :
  op (total op zero μ (<[m := e]> t)) (μ (default fresh (t !! m))) = op (total op zero μ t) (μ e).
Proof.
  destruct (t !! m) as [e0|] eqn:Hm; simpl.
  - rewrite <- (insert_delete_eq t m e).
    rewrite total_insert_None by apply lookup_delete_eq.
    rewrite (total_delete t m e0 Hm).
    rewrite (op_comm (μ e)), <- op_assoc, (op_comm (μ e)), op_assoc.
    by rewrite (op_comm (μ e0)).
  - rewrite total_insert_None by done. by rewrite μ_fresh, op_zero, op_comm.
Qed.

End Totals.

Section Games.
Context {num : Type} `{JsNum num}.

Lemma games_total_insert (t : gmap string (elo_entry num)) m e :
  (games_total (<[m := e]> t) + battlesPlayed (entry_of t m) = games_total t + battlesPlayed e)%nat.
Proof.
  apply (total_insert Nat.add 0%nat battlesPlayed fresh_entry); intros; simpl; lia.
Qed.

Lemma games_total_apply_battle (t : gmap string (elo_entry num)) b :
  games_total (apply_battle t b) = (games_total t + 2)%nat.
Proof.
  unfold apply_battle.
  set (u := manual_update (entry_of t) b).
  pose proof (games_total_insert t (modelA b) (u (modelA b))) as HA.
  pose proof (games_total_insert (<[modelA b := u (modelA b)]> t) (modelB b) (u (modelB b))) as HB.
  revert HA HB. unfold u.
  destruct (decide (modelA b = modelB b)) as [Heq|Hne].
  - rewrite manual_update_self by done. rewrite Heq, entry_of_insert_eq.
    rewrite manual_update_self by done. simpl. lia.
  - rewrite entry_of_insert_ne, manual_update_A, manual_update_B by done. simpl. lia.
Qed.

Lemma games_total_foldl (t : gmap string (elo_entry num)) bs :
  games_total (foldl apply_battle t bs) = (games_total t + 2 * length bs)%nat.
Proof.
  revert t. induction bs as [|b bs IH]; intros t; simpl; [lia|].
  rewrite IH, games_total_apply_battle. lia.
Qed.

Lemma games_total_init names : games_total (init_eloScores (num := num) names) = 0%nat.
Proof.
  unfold init_eloScores.
  assert (Hgen : ∀ t : gmap string (elo_entry num),
    games_total t = 0%nat →
    games_total (foldl (λ t n, <[n := fresh_entry]> t) t names) = 0%nat).
  { induction names as [|n names IH]; intros t Ht; simpl; [done|].
    apply IH. pose proof (games_total_insert t n fresh_entry) as Hi.
    simpl in Hi. lia. }
  apply Hgen. apply map_fold_empty.
Qed.

End Games.

(** ** Exact arithmetic *)

Section Exact.
Local Open Scope R_scope.

Lemma pow10_pos x : 0 < Rpower 10 x.
Proof. unfold Rpower. apply exp_pos. Qed.

Lemma expected_R (own other : R) :
  expected own other = 1 / (1 + Rpower 10 ((other - own) / 400)).
Proof. reflexivity. Qed.

Lemma expected_sum (a b : R) : expected a b + expected b a = 1.
Proof.
  rewrite !expected_R.
  replace ((a - b) / 400) with (- ((b - a) / 400)) by lra.
  rewrite Rpower_Ropp.
  pose proof (pow10_pos ((b - a) / 400)) as Hp.
  set (p := Rpower 10 ((b - a) / 400)) in *.
  field. split; lra.
Qed.

Lemma expected_bounds (a b : R) : 0 < expected a b < 1.
Proof.
  rewrite expected_R.
  pose proof (pow10_pos ((b - a) / 400)) as Hp.
  set (p := Rpower 10 ((b - a) / 400)) in *.
  split.
  - apply Rdiv_lt_0_compat; lra.
  - apply Rmult_lt_reg_r with (1 + p); [lra|].
    unfold Rdiv. rewrite Rmult_assoc, Rinv_l by lra. lra.
Qed.

Lemma scores_sum (b : battle) : (scores (num := R) b).1 + (scores (num := R) b).2 = 1.
Proof. unfold scores. repeat case_decide; simpl; lra. Qed.

(** The two rating changes of a battle cancel. *)
Lemma deltas_opposite (f : string → elo_entry R) (b : battle) :
  deltaA f b + deltaB f b = 0.
Proof.
  pose proof (scores_sum b) as Hs.
  pose proof (expected_sum (rating (f (modelA b))) (rating (f (modelB b)))) as He.
  unfold deltaA, deltaB, ELO_K_FACTOR. simpl in *. nra.
Qed.

Lemma excess_insert (t : gmap string (elo_entry R)) m e :
  excess (<[m := e]> t) + (rating (entry_of t m) - 1500) = excess t + (rating e - 1500).
Proof.
  apply (total_insert Rplus 0 (λ e, rating e - 1500) fresh_entry); intros; simpl; lra.
Qed.

Lemma rating_total_excess (t : gmap string (elo_entry R)) :
  rating_total t = excess t + 1500 * INR (size t).
Proof.
  induction t as [|m e t Hm IH] using map_ind.
  { unfold rating_total, excess. rewrite !map_fold_empty, map_size_empty. simpl. lra. }
  unfold rating_total, excess in *.
  rewrite (map_fold_insert_L (λ _ e acc, rating e + acc)); [|intros; lra|done].
  rewrite (map_fold_insert_L (λ _ e acc, (rating e - 1500) + acc)); [|intros; lra|done].
  rewrite map_size_insert_None by done. rewrite S_INR, IH. lra.
Qed.

Lemma excess_apply_battle (t : gmap string (elo_entry R)) b :
  excess (apply_battle t b) = excess t.
Proof.
  unfold apply_battle.
  pose proof (excess_insert t (modelA b) (manual_update (entry_of t) b (modelA b))) as HA.
  pose proof (excess_insert (<[modelA b := manual_update (entry_of t) b (modelA b)]> t)
                (modelB b) (manual_update (entry_of t) b (modelB b))) as HB.
  pose proof (deltas_opposite (entry_of t) b) as Hd.
  revert HA HB.
  destruct (decide (modelA b = modelB b)) as [Heq|Hne].
  - rewrite manual_update_self by done. rewrite Heq, entry_of_insert_eq.
    rewrite manual_update_self by done.
    set (dA := deltaA (entry_of t) b) in *. set (dB := deltaB (entry_of t) b) in *.
    clearbody dA dB. simpl. intros HA HB. lra.
  - rewrite entry_of_insert_ne, manual_update_A, manual_update_B by done.
    set (dA := deltaA (entry_of t) b) in *. set (dB := deltaB (entry_of t) b) in *.
    clearbody dA dB. simpl. intros HA HB. lra.
Qed.

Lemma excess_foldl (t : gmap string (elo_entry R)) bs :
  excess (foldl apply_battle t bs) = excess t.
Proof.
  revert t. induction bs as [|b bs IH]; intros t; simpl; [done|].
  by rewrite IH, excess_apply_battle.
Qed.

Lemma excess_all_default (t : gmap string (elo_entry R)) :
  (∀ n e, t !! n = Some e → rating e = 1500) → excess t = 0.
Proof.
  induction t as [|m e t Hm IH] using map_ind; intros Hall.
  { apply map_fold_empty. }
  unfold excess in *.
  rewrite (map_fold_insert_L (λ _ e acc, (rating e - 1500) + acc)); [|intros; lra|done].
  rewrite IH.
  - rewrite (Hall m e) by apply lookup_insert_eq. lra.
  - intros n e' Hn. apply (Hall n). rewrite lookup_insert_ne; [done|congruence].
Qed.

Lemma excess_init names : excess (init_eloScores names) = 0.
Proof.
  apply excess_all_default. intros n e. rewrite lookup_init_eloScores.
  case_decide; [|done]. by intros [= <-].
Qed.

End Exact.

(** * The claims of the specification *)

Section Claims.
Context {num : Type} `{JsNum num}.

(** C1.  For every battle, both expected scores are computed by
    [1 / (1 + 10^((rating(other) - rating(own)) / 400))] from the ratings
    the table holds before either update of that battle, and the rating of
    the participant in a slot changes by exactly
    [ELO_K_FACTOR * (score - expected)] for that slot: B's change uses A's
    rating as it stood before A's update.  When one name fills both slots,
    the two changes land on its one entry; no other entry is touched. *)
Theorem C1_simultaneous_update (t : gmap string (elo_entry num)) (b : battle) :
  let ratingA := rating (entry_of t (modelA b)) in
  let ratingB := rating (entry_of t (modelB b)) in
  let expectedA :=
    (num_of_Z 1 / (num_of_Z 1 + Math_pow (num_of_Z 10) ((ratingB - ratingA) / num_of_Z 400)))%num in
  let expectedB :=
    (num_of_Z 1 / (num_of_Z 1 + Math_pow (num_of_Z 10) ((ratingA - ratingB) / num_of_Z 400)))%num in
  let dA := (ELO_K_FACTOR * ((scores b).1 - expectedA))%num in
  let dB := (ELO_K_FACTOR * ((scores b).2 - expectedB))%num in
  ∃ t', process_battle t b = Some t' ∧
    (modelA b ≠ modelB b →
       rating <$> t' !! modelA b = Some (ratingA + dA)%num ∧
       rating <$> t' !! modelB b = Some (ratingB + dB)%num) ∧
    (modelA b = modelB b →
       rating <$> t' !! modelA b = Some (ratingA + dA + dB)%num) ∧
    (∀ n, n ≠ modelA b → n ≠ modelB b → t' !! n = t !! n).
Proof.
  intros ratingA ratingB expectedA expectedB dA dB.
  eexists. split; [apply process_battle_closed|]. split_and!.
  - intros Hne. split.
    + rewrite lookup_insert_ne, lookup_insert_eq by done.
      by rewrite manual_update_A.
    + rewrite lookup_insert_eq. by rewrite manual_update_B.
  - intros Heq. rewrite Heq, lookup_insert_eq.
    rewrite manual_update_self by done. simpl. f_equal.
    subst ratingA dA dB expectedA expectedB ratingB.
    unfold deltaA, deltaB, expected. by rewrite Heq.
  - intros n HA HB. by rewrite !lookup_insert_ne.
Qed.

(** C2.  The battles are processed in the stable ascending order of their
    start times: the processing order is a rearrangement of the input that
    ascends in [timestamp_start] and keeps the battles of one start time in
    their input order.  Whenever the start times are distinct, whatever
    the order of the input array, the returned table is the one obtained
    by applying the updates one by one in chronological order. *)
Theorem C2_chronological_stable_order (bs : list battle) :
  ∃ (t : gmap string (elo_entry num)) order,
    calculateElo bs = Some (t, order) ∧
    forEach process_battle (init_eloScores (modelNames bs)) order = Some t ∧
    order ≡ₚ bs ∧
    StronglySorted (key_le timestamp_start) order ∧
    (∀ k, filter (λ b, timestamp_start b = k) order
          = filter (λ b, timestamp_start b = k) bs) ∧
    (∀ chron, StronglySorted (key_lt timestamp_start) chron → bs ≡ₚ chron →
       order = chron ∧
       ∀ n, (participant n chron → t !! n = Some (manual_ratings chron n)) ∧
            (¬ participant n chron → t !! n = None)).
Proof.
  eexists _, _. split; [apply calculateElo_closed|].
  change by_start_asc with (by_key timestamp_start).
  split_and!.
  - apply forEach_process_battle.
  - apply Array_sort_Permutation.
  - apply Array_sort_sorted.
  - intros k. apply Array_sort_stable.
  - intros chron Hchron Hp.
    pose proof (Array_sort_chron timestamp_start bs chron Hp Hchron) as Hsort.
    split; [done|]. intros n.
    pose proof (lookup_calculateElo bs _ _ n (calculateElo_closed bs)) as Hl.
    change by_start_asc with (by_key timestamp_start) in Hl.
    rewrite Hsort in Hl |- *. rewrite Hl.
    split; intros Hn.
    + rewrite decide_True; [done|].
      apply elem_of_modelNames. eapply participant_Permutation; [symmetry|]; done.
    + rewrite decide_False; [done|]. intros Hin. apply Hn.
      apply elem_of_modelNames in Hin. by eapply participant_Permutation.
Qed.

(** C4.  A battle whose outcome is neither [`${modelA}_wins`] nor
    [`${modelB}_wins`] (misspelled, absent) is scored as a tie,
    [(0.5, 0.5)]; processing it raises no error and does not skip it: both
    slots are counted as a game played and the ratings move by the tie
    update. *)
Theorem C4_unrecognised_outcome_is_tie (t : gmap string (elo_entry num)) (b : battle) :
  battle_outcome b ≠ Some (modelA b +:+ "_wins") →
  battle_outcome b ≠ Some (modelB b +:+ "_wins") →
  scores b = (num_half, num_half) ∧
  ∃ t', process_battle t b = Some t' ∧
    games_total t' = (games_total t + 2)%nat ∧
    (∀ n, n = modelA b ∨ n = modelB b →
       ∃ e, t' !! n = Some e ∧ (battlesPlayed (entry_of t n) < battlesPlayed e)%nat) ∧
    (modelA b ≠ modelB b →
       let ratingA := rating (entry_of t (modelA b)) in
       let ratingB := rating (entry_of t (modelB b)) in
       rating <$> t' !! modelA b
         = Some (ratingA + ELO_K_FACTOR * (num_half - expected ratingA ratingB))%num ∧
       rating <$> t' !! modelB b
         = Some (ratingB + ELO_K_FACTOR * (num_half - expected ratingB ratingA))%num).
Proof.
  intros HA HB.
  assert (Hs : scores b = (num_half, num_half)).
  { unfold scores. by rewrite !decide_False. }
  split; [done|].
  eexists. split; [apply process_battle_closed|]. fold (apply_battle t b).
  split_and!.
  - apply games_total_apply_battle.
  - intros n Hn. unfold apply_battle.
    destruct (decide (modelA b = modelB b)) as [Heq|Hne].
    + assert (n = modelB b) as -> by (destruct Hn; congruence).
      rewrite lookup_insert_eq. eexists; split; [done|].
      rewrite manual_update_self by done. simpl. lia.
    + destruct Hn as [->| ->].
      * rewrite lookup_insert_ne, lookup_insert_eq by done. eexists; split; [done|].
        rewrite manual_update_A by done. simpl. lia.
      * rewrite lookup_insert_eq. eexists; split; [done|].
        rewrite manual_update_B by done. simpl. lia.
  - intros Hne ratingA ratingB. unfold apply_battle. split.
    + rewrite lookup_insert_ne, lookup_insert_eq by done.
      rewrite manual_update_A by done. unfold deltaA. by rewrite Hs.
    + rewrite lookup_insert_eq.
      rewrite manual_update_B by done. unfold deltaB. by rewrite Hs.
Qed.

(** C6.  For every battle collection the call returns, and the sum of
    [battlesPlayed] over the entries of the returned table is twice the
    number of battles. *)
Theorem C6_games_played_sum (bs : list battle) :
  ∃ (t : gmap string (elo_entry num)) order,
    calculateElo bs = Some (t, order) ∧
    games_total t = (2 * length bs)%nat.
Proof.
  eexists _, _. split; [apply calculateElo_closed|].
  rewrite games_total_foldl, games_total_init.
  by rewrite (Permutation_length (Array_sort_Permutation by_start_asc bs)).
Qed.

(** C8.  The computation is a function of the battle array alone (it reads
    no other state), so equal inputs give equal outputs.  It returns for
    every collection, and a second call on the very array the first call
    was given, which that call left sorted, returns the same table:
    same participants, same ratings, same [battlesPlayed].  On the empty
    collection the table is empty. *)
Theorem C8_deterministic (bs : list battle) :
  (∃ (t : gmap string (elo_entry num)) order,
     calculateElo bs = Some (t, order) ∧
     calculateElo order = Some (t, order)) ∧
  calculateElo (num := num) [] = Some (∅, []).
Proof.
  split; [|done].
  eexists _, _. split; [apply calculateElo_closed|].
  rewrite calculateElo_closed.
  change by_start_asc with (by_key timestamp_start).
  rewrite Array_sort_idemp.
  rewrite (init_eloScores_Permutation (modelNames (Array_sort _ bs)) (modelNames bs)); [done|].
  apply modelNames_Permutation, Array_sort_Permutation.
Qed.

(** With distinct start times two arrangements of one collection get the
    same table. *)
Lemma calculateElo_Permutation (bs bs' : list battle) :
  bs ≡ₚ bs' → NoDup (timestamp_start <$> bs) →
  ∃ (t : gmap string (elo_entry num)) order,
    calculateElo bs = Some (t, order) ∧ calculateElo bs' = Some (t, order).
Proof.
  intros Hp Hnd. eexists _, _. split; [apply calculateElo_closed|].
  rewrite calculateElo_closed.
  change by_start_asc with (by_key timestamp_start).
  assert (Hc : StronglySorted (key_lt timestamp_start)
                 (Array_sort (by_key timestamp_start) bs)).
  { apply key_le_lt; [|apply Array_sort_sorted].
    by rewrite Array_sort_Permutation. }
  rewrite (Array_sort_chron timestamp_start bs' _
             (transitivity (symmetry Hp) (symmetry (Array_sort_Permutation _ bs))) Hc).
  by rewrite (init_eloScores_Permutation _ _ (modelNames_Permutation _ _ Hp)).
Qed.

(** What the two sorts leave behind: the timeline works on a copy, the
    rating engine on the array itself. *)
Lemma displayBattleList_keeps_array (bs : list battle) : (displayBattleList bs).2 = bs.
Proof. reflexivity. Qed.


(** C3.  The call of [calculateElo] on an array whose later battle comes
    first returns with that array reordered: the sort of the rating engine
    works on the caller's array in place, where the sort of the timeline
    ([displayBattleList]) works on a copy and leaves the array as it was. *)
Theorem C3_calculateElo_reorders_the_array :
  let later := game "b2" "X" "Y" 2000 (Some "X_wins") in
  let earlier := game "b1" "X" "Y" 1000 (Some "Y_wins") in
  let battles := [later; earlier] in
  ∃ t : gmap string (elo_entry num),
    calculateElo battles = Some (t, [earlier; later]) ∧
    [earlier; later] ≠ battles ∧
    (displayBattleList battles).2 = battles.
Proof.
  intros later earlier battles.
  eexists. split; [apply calculateElo_closed|]. split; [|done].
  intros [=].
Qed.

(** C9.  The lookup of an identifier that no battle of the collection
    carries finds nothing, and the details view answers with the explicit
    not-found markup instead of failing (and does nothing on a page
    without the details element); so it is for any three battles and a
    fourth, unrelated identifier. *)
Theorem C9_lookup_not_found (detailsHtml : battle → string)
    (battleId : string) (battles : list battle) :
  (∀ b, b ∈ battles → battle_id b ≠ battleId) →
  find_battle battleId battles = None ∧
  (∀ shown, displayBattleDetails detailsHtml battleId battles (Some shown)
            = Some "<p>Battle not found.</p>") ∧
  displayBattleDetails detailsHtml battleId battles None = None.
Proof.
  intros Hnone.
  assert (Hfind : find_battle battleId battles = None).
  { unfold find_battle. induction battles as [|b bs IH]; simpl; [done|].
    rewrite bool_decide_eq_false_2 by (apply Hnone; left).
    apply IH. intros b' Hb'. apply Hnone. by right. }
  split; [done|]. split; [|done].
  intros shown. unfold displayBattleDetails. by rewrite Hfind.
Qed.

End Claims.

Section ExactClaims.
Local Open Scope R_scope.

Lemma expected_equal (a : R) : expected a a = 1 / 2.
Proof.
  rewrite expected_R. replace ((a - a) / 400) with 0 by lra.
  rewrite Rpower_O by lra. lra.
Qed.

Lemma expected_gt_half (own other : R) : other < own → 1 / 2 < expected own other.
Proof.
  intros Hlt. rewrite expected_R.
  pose proof (pow10_pos ((other - own) / 400)) as Hp.
  assert (Hp1 : Rpower 10 ((other - own) / 400) < 1).
  { rewrite <- (Rpower_O 10) by lra. apply Rpower_lt; lra. }
  set (p := Rpower 10 ((other - own) / 400)) in *.
  apply Rmult_lt_reg_r with (1 + p); [lra|].
  unfold Rdiv at 2. rewrite Rmult_assoc, Rinv_l by lra. lra.
Qed.

Lemma expected_lt_half (own other : R) : own < other → expected own other < 1 / 2.
Proof.
  intros Hlt.
  pose proof (expected_sum own other) as Hs.
  pose proof (expected_gt_half other own Hlt). lra.
Qed.

(** A battle of a model against itself: both writes land on one entry,
    which ends where it started and counts two games. *)
Example self_battle :
  process_battle (num := R) ∅ (game "g0" "X" "X" 0 (Some "X_wins"))
  = Some {[ "X" := {| rating := 1500 + 32 * (1 - 1 / 2) + 32 * (0 - 1 / 2);
                      battlesPlayed := 2 |} ]}.
Proof.
  rewrite process_battle_closed.
  set (b := game "g0" "X" "X" 0 (Some "X_wins")).
  rewrite (manual_update_self (entry_of ∅) b eq_refl).
  change (modelA b) with "X"%string. change (modelB b) with "X"%string.
  rewrite insert_insert_eq, insert_empty. unfold deltaA, deltaB.
  change (scores (num := R) b) with (1, 0).
  change (rating (entry_of (num := R) ∅ (modelA b))) with 1500.
  change (rating (entry_of (num := R) ∅ (modelB b))) with 1500.
  by rewrite expected_equal.
Qed.

(** C5.  Two participants [P1] and [P2], both starting at 1500 with no game
    played, and one battle with outcome ["P1_wins"] (K = 32): both expected
    scores are 0.5, and the call returns rating 1516 for [P1], 1484 for
    [P2], one game played each. *)
Theorem C5_single_battle_example (id color : string) (ts te : Z) :
  let b := {| battle_id := id;
              model_A_info := {| name := "P1" |};
              model_B_info := {| name := "P2" |};
              timestamp_start := ts; timestamp_end := te;
              plaintext_color := color;
              battle_outcome := Some "P1_wins" |} in
  let start : gmap string (elo_entry R) := init_eloScores (modelNames [b]) in
  start = {[ "P1" := {| rating := 1500; battlesPlayed := 0 |};
             "P2" := {| rating := 1500; battlesPlayed := 0 |} ]} ∧
  expected (rating (entry_of start "P1")) (rating (entry_of start "P2")) = 1 / 2 ∧
  expected (rating (entry_of start "P2")) (rating (entry_of start "P1")) = 1 / 2 ∧
  calculateElo [b] =
    Some ({[ "P1" := {| rating := 1516; battlesPlayed := 1 |};
             "P2" := {| rating := 1484; battlesPlayed := 1 |} ]}, [b]).
Proof.
  intros b start.
  assert (Hstart : start = {[ "P1" := {| rating := 1500; battlesPlayed := 0 |};
                              "P2" := {| rating := 1500; battlesPlayed := 0 |} ]}).
  { apply map_eq. intros i. subst start. rewrite lookup_init_eloScores.
    change (modelNames [b]) with ["P1"; "P2"]%string.
    destruct (decide (i = "P1"%string)) as [->|H1]; [done|].
    destruct (decide (i = "P2"%string)) as [->|H2]; [done|].
    rewrite decide_False.
    - by rewrite lookup_insert_ne, lookup_singleton_ne by done.
    - intros [?|[?|?%elem_of_nil]%elem_of_cons]%elem_of_cons; done. }
  assert (HP1 : entry_of start "P1" = {| rating := 1500; battlesPlayed := 0 |}).
  { by rewrite Hstart. }
  assert (HP2 : entry_of start "P2" = {| rating := 1500; battlesPlayed := 0 |}).
  { by rewrite Hstart. }
  split; [done|]. rewrite HP1, HP2. simpl.
  split; [apply expected_equal|]. split; [apply expected_equal|].
  rewrite calculateElo_closed.
  change (Array_sort by_start_asc [b]) with [b]. cbn [foldl]. fold start.
  f_equal. f_equal. unfold apply_battle.
  assert (Hne : modelA b ≠ modelB b) by done.
  rewrite manual_update_A, manual_update_B by done.
  unfold deltaA, deltaB.
  change (modelA b) with "P1"%string. change (modelB b) with "P2"%string.
  rewrite HP1, HP2.
  change (scores (num := R) b) with (1, 0). simpl.
  rewrite !(expected_equal 1500 : 1 / (1 + Rpower 10 ((1500 - 1500) / 400)) = 1 / 2).
  rewrite Hstart.
  apply map_eq. intros i.
  destruct (decide (i = "P2"%string)) as [->|H2].
  { rewrite lookup_insert_eq, lookup_insert_ne, lookup_singleton_eq by done.
    do 2 f_equal. lra. }
  destruct (decide (i = "P1"%string)) as [->|H1].
  { rewrite lookup_insert_ne, !lookup_insert_eq by done. do 2 f_equal. lra. }
  by rewrite !lookup_insert_ne, !lookup_singleton_ne by done.
Qed.

(** C7.  The update does not commute with the processing order.  A beats
    B in one battle and B beats A in the other (K = 32, not zero); played
    in that order A ends below 1500, with the two start times swapped and
    the outcomes kept A ends above 1500. *)
Theorem C7_order_sensitive :
  let AbeatsB ts := {| battle_id := "g1";
                       model_A_info := {| name := "A" |};
                       model_B_info := {| name := "B" |};
                       timestamp_start := ts; timestamp_end := ts + 1;
                       plaintext_color := "ff0000";
                       battle_outcome := Some "A_wins" |} in
  let BbeatsA ts := {| battle_id := "g2";
                       model_A_info := {| name := "A" |};
                       model_B_info := {| name := "B" |};
                       timestamp_start := ts; timestamp_end := ts + 1;
                       plaintext_color := "00ff00";
                       battle_outcome := Some "B_wins" |} in
  ELO_K_FACTOR ≠ 0 ∧
  ∃ (t t' : gmap string (elo_entry R)) order order' r r',
    calculateElo [AbeatsB 1000%Z; BbeatsA 2000%Z] = Some (t, order) ∧
    calculateElo [AbeatsB 2000%Z; BbeatsA 1000%Z] = Some (t', order') ∧
    rating <$> t !! "A" = Some r ∧ rating <$> t' !! "A" = Some r' ∧
    r < 1500 < r' ∧ t ≠ t'.
Proof.
  intros AbeatsB BbeatsA.
  split; [unfold ELO_K_FACTOR; simpl; lra|].
  set (f0 := λ _ : string, fresh_entry (num := R)).
  assert (Hne : ∀ ts, modelA (AbeatsB ts) ≠ modelB (AbeatsB ts)) by done.
  assert (Hne' : ∀ ts, modelA (BbeatsA ts) ≠ modelB (BbeatsA ts)) by done.
  (* after a first battle that A wins, and after one that B wins *)
  assert (Hwin : ∀ ts, rating (manual_update f0 (AbeatsB ts) "A") = 1516 ∧
                       rating (manual_update f0 (AbeatsB ts) "B") = 1484).
  { intros ts. split.
    - rewrite (manual_update_A f0 (AbeatsB ts) (Hne ts)). unfold deltaA.
      change (scores (num := R) (AbeatsB ts)) with (1, 0). simpl.
      rewrite (expected_equal 1500 : 1 / (1 + Rpower 10 ((1500 - 1500) / 400)) = 1 / 2).
      lra.
    - rewrite (manual_update_B f0 (AbeatsB ts) (Hne ts)). unfold deltaB.
      change (scores (num := R) (AbeatsB ts)) with (1, 0). simpl.
      rewrite (expected_equal 1500 : 1 / (1 + Rpower 10 ((1500 - 1500) / 400)) = 1 / 2).
      lra. }
  assert (Hloss : ∀ ts, rating (manual_update f0 (BbeatsA ts) "A") = 1484 ∧
                        rating (manual_update f0 (BbeatsA ts) "B") = 1516).
  { intros ts. split.
    - rewrite (manual_update_A f0 (BbeatsA ts) (Hne' ts)). unfold deltaA.
      change (scores (num := R) (BbeatsA ts)) with (0, 1). simpl.
      rewrite (expected_equal 1500 : 1 / (1 + Rpower 10 ((1500 - 1500) / 400)) = 1 / 2).
      lra.
    - rewrite (manual_update_B f0 (BbeatsA ts) (Hne' ts)). unfold deltaB.
      change (scores (num := R) (BbeatsA ts)) with (0, 1). simpl.
      rewrite (expected_equal 1500 : 1 / (1 + Rpower 10 ((1500 - 1500) / 400)) = 1 / 2).
      lra. }
  (* the second battle *)
  assert (Hr : rating (manual_ratings [AbeatsB 1000%Z; BbeatsA 2000%Z] "A") < 1500).
  { unfold manual_ratings. cbn [foldl]. fold f0.
    rewrite (manual_update_A _ (BbeatsA 2000%Z) (Hne' _)). unfold deltaA.
    change (scores (num := R) (BbeatsA 2000%Z)) with (0, 1).
    change (modelA (BbeatsA 2000%Z)) with "A"%string.
    change (modelB (BbeatsA 2000%Z)) with "B"%string.
    destruct (Hwin 1000%Z) as [-> ->].
    pose proof (expected_gt_half 1516 1484 ltac:(lra)) as He.
    unfold ELO_K_FACTOR. simpl in *. lra. }
  assert (Hr' : 1500 < rating (manual_ratings [BbeatsA 1000%Z; AbeatsB 2000%Z] "A")).
  { unfold manual_ratings. cbn [foldl]. fold f0.
    rewrite (manual_update_A _ (AbeatsB 2000%Z) (Hne _)). unfold deltaA.
    change (scores (num := R) (AbeatsB 2000%Z)) with (1, 0).
    change (modelA (AbeatsB 2000%Z)) with "A"%string.
    change (modelB (AbeatsB 2000%Z)) with "B"%string.
    destruct (Hloss 1000%Z) as [-> ->].
    pose proof (expected_lt_half 1484 1516 ltac:(lra)) as He.
    unfold ELO_K_FACTOR. simpl in *. lra. }
  pose proof (lookup_calculateElo [AbeatsB 1000%Z; BbeatsA 2000%Z] _ _ "A"
                (calculateElo_closed _)) as Hl.
  pose proof (lookup_calculateElo [AbeatsB 2000%Z; BbeatsA 1000%Z] _ _ "A"
                (calculateElo_closed _)) as Hl'.
  change (Array_sort by_start_asc [AbeatsB 1000%Z; BbeatsA 2000%Z])
    with [AbeatsB 1000%Z; BbeatsA 2000%Z] in Hl.
  change (Array_sort by_start_asc [AbeatsB 2000%Z; BbeatsA 1000%Z])
    with [BbeatsA 1000%Z; AbeatsB 2000%Z] in Hl'.
  change (modelNames [AbeatsB 1000%Z; BbeatsA 2000%Z]) with ["A"; "B"]%string in Hl.
  change (modelNames [AbeatsB 2000%Z; BbeatsA 1000%Z]) with ["A"; "B"]%string in Hl'.
  rewrite decide_True in Hl, Hl' by left.
  eexists _, _, _, _, _, _.
  split; [apply calculateElo_closed|]. split; [apply calculateElo_closed|].
  change (Array_sort by_start_asc [AbeatsB 1000%Z; BbeatsA 2000%Z])
    with [AbeatsB 1000%Z; BbeatsA 2000%Z].
  change (Array_sort by_start_asc [AbeatsB 2000%Z; BbeatsA 1000%Z])
    with [BbeatsA 1000%Z; AbeatsB 2000%Z].
  change (modelNames [AbeatsB 1000%Z; BbeatsA 2000%Z]) with ["A"; "B"]%string.
  change (modelNames [AbeatsB 2000%Z; BbeatsA 1000%Z]) with ["A"; "B"]%string.
  rewrite Hl, Hl'.
  split; [reflexivity|]. split; [reflexivity|]. split; [by split|].
  intros Heq. rewrite Heq, Hl' in Hl.
  assert (Hx : manual_ratings (num := R) [BbeatsA 1000%Z; AbeatsB 2000%Z] "A"
               = manual_ratings [AbeatsB 1000%Z; BbeatsA 2000%Z] "A") by congruence.
  rewrite Hx in Hr'. lra.
Qed.

(** C10.  In exact arithmetic the update is zero-sum.  For every battle the
    two expected scores add up to 1 and so do the two actual scores, hence
    the two rating changes are opposite and a battle between participants
    of the table leaves the sum of all ratings unchanged.  For every
    collection the ratings of the returned table add up to the default
    rating times the number of distinct participants. *)
Theorem C10_zero_sum :
  (∀ (t : gmap string (elo_entry R)) (b : battle),
     let ratingA := rating (entry_of t (modelA b)) in
     let ratingB := rating (entry_of t (modelB b)) in
     expected ratingA ratingB + expected ratingB ratingA = 1 ∧
     (scores b).1 + (scores b).2 = 1 ∧
     ELO_K_FACTOR * ((scores b).1 - expected ratingA ratingB)
       = - (ELO_K_FACTOR * ((scores b).2 - expected ratingB ratingA)) ∧
     ∃ t', process_battle t b = Some t' ∧
           (is_Some (t !! modelA b) → is_Some (t !! modelB b) →
            rating_total t' = rating_total t)) ∧
  (∀ bs : list battle,
     NoDup (modelNames bs) ∧
     (∀ n, n ∈ modelNames bs ↔ participant n bs) ∧
     ∃ (t : gmap string (elo_entry R)) order,
       calculateElo bs = Some (t, order) ∧
       size t = length (modelNames bs) ∧
       rating_total t = ELO_DEFAULT_RATING * INR (length (modelNames bs))).
Proof.
  split.
  - intros t b ratingA ratingB.
    split; [apply expected_sum|]. split; [apply scores_sum|].
    split.
    { pose proof (deltas_opposite (entry_of t) b) as Hd.
      unfold deltaA, deltaB in Hd. fold ratingA ratingB in Hd. simpl in *. lra. }
    eexists. split; [apply process_battle_closed|]. fold (apply_battle t b).
    intros HA HB.
    rewrite !rating_total_excess, excess_apply_battle.
    unfold apply_battle. rewrite !map_size_insert_Some; [done|done|].
    rewrite lookup_insert_is_Some. destruct (decide (modelA b = modelB b)); auto.
  - intros bs.
    split; [apply NoDup_modelNames|]. split; [intros n; apply elem_of_modelNames|].
    eexists _, _. split; [apply calculateElo_closed|].
    split; [apply (size_calculateElo bs _ _ (calculateElo_closed bs))|].
    rewrite rating_total_excess, excess_foldl, excess_init.
    rewrite (size_calculateElo bs _ _ (calculateElo_closed bs)).
    unfold ELO_DEFAULT_RATING. simpl. lra.
Qed.

End ExactClaims.

(** * The theorems at concrete inputs *)

(** Three battles among X, Y and Z, given out of chronological order. *)
Lemma C2_witness :
  let chron := [game "g1" "X" "Y" 1000 (Some "X_wins");
                game "g2" "Y" "Z" 2000 (Some "Z_wins");
                game "g3" "Z" "X" 3000 None] in
  let given := [game "g3" "Z" "X" 3000 None;
                game "g1" "X" "Y" 1000 (Some "X_wins");
                game "g2" "Y" "Z" 2000 (Some "Z_wins")] in
  ∃ t : gmap string (elo_entry R),
    calculateElo given = Some (t, chron) ∧
    ∀ n, (participant n chron → t !! n = Some (manual_ratings chron n)) ∧
         (¬ participant n chron → t !! n = None).
Proof.
  intros chron given.
  destruct (C2_chronological_stable_order (num := R) given)
    as (t & order & Hc & _ & _ & _ & _ & Hchron).
  destruct (Hchron chron) as [Ho Hn].
  - repeat constructor; unfold key_lt; simpl; lia.
  - apply (Permutation_app_comm [game "g3" "Z" "X" 3000 None]).
  - exists t. split; [by rewrite <- Ho|exact Hn].
Defined.

(** A misspelled outcome. *)
Lemma C4_witness :
  let b := game "g1" "P1" "P2" 1000 (Some "P1_won") in
  scores (num := R) b = (1 / 2, 1 / 2)%R ∧
  ∃ t', process_battle (num := R) ∅ b = Some t' ∧ games_total t' = 2%nat.
Proof.
  intros b.
  destruct (C4_unrecognised_outcome_is_tie (num := R) ∅ b)
    as (Hs & t' & Ht' & Hg & _).
  - discriminate.
  - discriminate.
  - split; [exact Hs|]. exists t'. split; [exact Ht'|exact Hg].
Defined.

(** Three battles with distinct identifiers and a fourth identifier. *)
Lemma C9_witness :
  let battles := [game "b1" "X" "Y" 1000 None;
                  game "b2" "Y" "Z" 2000 None;
                  game "b3" "Z" "X" 3000 None] in
  find_battle "b4" battles = None ∧
  displayBattleDetails battle_id "b4" battles (Some "<p>old</p>")
    = Some "<p>Battle not found.</p>".
Proof.
  intros battles.
  destruct (C9_lookup_not_found battle_id "b4" battles) as (Hf & Hd & _).
  - intros b Hb. repeat (apply elem_of_cons in Hb as [->|Hb]; [discriminate|]).
    by apply elem_of_nil in Hb.
  - split; [exact Hf|apply Hd].
Defined.

(** * Further properties of the script *)

(** ** Escaping *)

Section Escaping.

Lemma app_String c s t : String c s +:+ t = String c (s +:+ t).
Proof. reflexivity. Qed.

Lemma app_assoc_string (s t u : string) : (s +:+ t) +:+ u = s +:+ (t +:+ u).
Proof. induction s as [|c s IH]; [done|]. by rewrite !app_String, IH. Qed.

Lemma chars_app (s t : string) :
  String.list_ascii_of_string (s +:+ t) = String.list_ascii_of_string s ++ String.list_ascii_of_string t.
Proof. induction s as [|c s IH]; [done|]. rewrite app_String. simpl. by rewrite IH. Qed.

Lemma length_app_string (s t : string) :
  String.length (s +:+ t) = (String.length s + String.length t)%nat.
Proof. induction s as [|c s IH]; [done|]. rewrite app_String. simpl. by rewrite IH. Qed.

Lemma escape_char_plain c : c ∉ markup_chars → escape_char c = String c EmptyString.
Proof.
  intros Hc. unfold escape_char.
  repeat (case_decide;
    [exfalso; apply Hc; subst c; unfold markup_chars; rewrite !elem_of_cons; auto 10|]).
  done.
Qed.

Lemma escape_char_markup c :
  c ∈ markup_chars → ∃ s, escape_char c = String "&" s ∧ (1 ≤ String.length s)%nat.
Proof.
  intros Hc. unfold markup_chars in Hc.
  repeat (apply elem_of_cons in Hc as [->|Hc]; [eexists; split; [reflexivity|simpl; lia]|]).
  by apply elem_of_nil in Hc.
Qed.

Lemma escape_char_chars c :
  Forall (λ d, d ∉ ["<"; ">"; "034"; "'"]%char) (String.list_ascii_of_string (escape_char c)).
Proof.
  unfold escape_char. repeat case_decide; simpl;
    repeat (constructor;
      [intros Hd;
       repeat (apply elem_of_cons in Hd as [Hd|Hd]; [first [discriminate Hd|congruence]|]);
       by apply elem_of_nil in Hd|]);
    constructor.
Qed.

Lemma escapeHtml_length s : (String.length s ≤ String.length (escapeHtml s))%nat.
Proof.
  induction s as [|c s IH]; simpl; [done|].
  rewrite length_app_string.
  assert (1 ≤ String.length (escape_char c))%nat; [|lia].
  unfold escape_char. repeat case_decide; simpl; lia.
Qed.

(** X1.  The escaped text holds none of [<], [>], the double quote and the
    single quote. *)
Theorem escapeHtml_no_markup (s : string) :
  Forall (λ c, c ∉ ["<"; ">"; "034"; "'"]%char) (String.list_ascii_of_string (escapeHtml s)).
Proof.
  induction s as [|c s IH]; simpl; [constructor|].
  rewrite chars_app. apply Forall_app. split; [apply escape_char_chars|done].
Qed.

(** X2.  A text is left as it is exactly when it holds none of the five
    characters. *)
Theorem escapeHtml_fixpoint (s : string) :
  escapeHtml s = s ↔ Forall (λ c, c ∉ markup_chars) (String.list_ascii_of_string s).
Proof.
  induction s as [|c s IH]; simpl; [by split; [constructor|]|].
  destruct (decide (c ∈ markup_chars)) as [Hc|Hc].
  - split.
    + intros Heq. exfalso.
      destruct (escape_char_markup c Hc) as (e & He & Hlen).
      rewrite He, app_String in Heq. injection Heq as _ Heq.
      pose proof (escapeHtml_length s) as Hl.
      apply (f_equal String.length) in Heq. rewrite length_app_string in Heq. lia.
    + intros [Hc' _]%Forall_cons_1. done.
  - rewrite (escape_char_plain c Hc), app_String. split.
    + intros [= Heq]. constructor; [done|]. by apply IH.
    + intros [_ Hs]%Forall_cons_1. f_equal. by apply IH.
Qed.

(** X3.  Escaping goes through concatenation: a markup built from escaped
    pieces is the escaped whole. *)
Theorem escapeHtml_app (s t : string) :
  escapeHtml (s +:+ t) = escapeHtml s +:+ escapeHtml t.
Proof.
  induction s as [|c s IH]; [done|].
  rewrite app_String. simpl. by rewrite IH, app_assoc_string.
Qed.

(** X4.  Escaping loses nothing: two texts with the same escaped form are
    the same text. *)
Theorem escapeHtml_inj (s t : string) : escapeHtml s = escapeHtml t → s = t.
Proof.
  revert t. induction s as [|c s IH]; intros [|d t]; simpl.
  - done.
  - intros Heq. exfalso. revert Heq. unfold escape_char. repeat case_decide; discriminate.
  - intros Heq. exfalso. revert Heq. unfold escape_char. repeat case_decide; discriminate.
  - intros Heq.
    assert (c = d ∧ escapeHtml s = escapeHtml t) as [-> Hst].
    { revert Heq. unfold escape_char.
      repeat case_decide; subst; rewrite ?app_String; intros Heq;
        try discriminate Heq; injection Heq as Heq; try done; try congruence. }
    f_equal. by apply IH.
Qed.

End Escaping.

(** ** Sorting by any comparator *)

Section SortGeneral.
Context {A : Type}.

Lemma Array_sort_ext (cmp cmp' : A → A → Z) l :
  (∀ x y, (0 <? cmp x y) = (0 <? cmp' x y)) → Array_sort cmp l = Array_sort cmp' l.
Proof.
  intros Hext. induction l as [|x l IH]; simpl; [done|]. rewrite IH.
  generalize (Array_sort cmp' l). intros k.
  induction k as [|y k IHk]; simpl; [done|]. by rewrite Hext, IHk.
Qed.

Section Ordered.
Context (cmp : A → A → Z) (before : relation A) `{!Transitive before}.
Hypothesis cmp_pos : ∀ x y, 0 < cmp x y → before y x.
Hypothesis cmp_nonpos : ∀ x y, cmp x y ≤ 0 → before x y.

Lemma sort_insert_ordered x l :
  StronglySorted before l → StronglySorted before (sort_insert cmp x l).
Proof.
  induction 1 as [|y l Hl IH Hy]; simpl.
  { repeat constructor. }
  destruct (Z.ltb_spec 0 (cmp x y)) as [Hlt|Hle].
  - constructor; [done|].
    rewrite sort_insert_Permutation. constructor; [by apply cmp_pos|done].
  - constructor; [by constructor|].
    constructor; [by apply cmp_nonpos|].
    eapply Forall_impl; [exact Hy|]. intros z Hz.
    by transitivity y; [apply cmp_nonpos|].
Qed.

Lemma Array_sort_ordered l : StronglySorted before (Array_sort cmp l).
Proof.
  induction l as [|x l IH]; simpl; [constructor|]. by apply sort_insert_ordered.
Qed.

End Ordered.

(** Two sorted arrangements that agree key by key are the same list. *)
Lemma sorted_by_groups (key : A → Z) l1 l2 :
  StronglySorted (key_le key) l1 → StronglySorted (key_le key) l2 →
  (∀ k, filter (λ a, key a = k) l1 = filter (λ a, key a = k) l2) →
  l1 = l2.
Proof.
  intros H1. revert l2. induction H1 as [|x l1 Hs1 IH Hx]; intros l2 H2 Hg.
  - destruct l2 as [|y l2]; [done|].
    specialize (Hg (key y)). rewrite filter_cons_True in Hg by done. done.
  - destruct H2 as [|y l2 Hs2 Hy].
    { specialize (Hg (key x)). rewrite filter_cons_True in Hg by done. done. }
    assert (Hxy : key x = key y).
    { assert (x ∈ y :: l2) as Hin.
      { apply (list_elem_of_filter (λ a, key a = key x)).
        rewrite <- Hg, filter_cons_True by done. left. }
      assert (y ∈ x :: l1) as Hin'.
      { apply (list_elem_of_filter (λ a, key a = key y)).
        rewrite Hg, filter_cons_True by done. left. }
      rewrite Forall_forall in Hx, Hy. unfold key_le in *.
      apply elem_of_cons in Hin as [->|Hin]; [done|].
      apply elem_of_cons in Hin' as [->|Hin']; [done|].
      specialize (Hx _ Hin'). specialize (Hy _ Hin). lia. }
    pose proof (Hg (key x)) as Hgx.
    rewrite !filter_cons_True in Hgx by done. injection Hgx as -> Hgx.
    f_equal. apply IH; [done|]. intros k. specialize (Hg k).
    rewrite !filter_cons in Hg. case_decide; [by injection Hg|done].
Qed.

End SortGeneral.

Section Stable.
Context {A : Type} (cmp : A → A → Z) (P : A → Prop) `{!∀ x, Decision (P x)}.
Hypothesis tied : ∀ x y, P x → P y → cmp x y ≤ 0.

(** Elements the comparator does not tell apart keep their order. *)
Lemma sort_insert_keeps_ties x l :
  filter P (sort_insert cmp x l) = filter P (x :: l).
Proof.
  induction l as [|y l IH]; simpl; [done|].
  destruct (Z.ltb_spec 0 (cmp x y)) as [Hlt|Hle]; [|done].
  rewrite filter_cons, IH, !filter_cons.
  destruct (decide (P y)) as [Hy|Hy], (decide (P x)) as [Hx|Hx]; try done.
  specialize (tied x y Hx Hy). lia.
Qed.

Lemma Array_sort_keeps_ties l : filter P (Array_sort cmp l) = filter P l.
Proof.
  induction l as [|x l IH]; simpl; [done|].
  by rewrite sort_insert_keeps_ties, !filter_cons, IH.
Qed.

End Stable.

(** ** The timeline *)

Section Timeline.

Lemma by_start_desc_key l :
  Array_sort by_start_desc l = Array_sort (by_key (λ b, - timestamp_start b)) l.
Proof.
  apply Array_sort_ext. intros x y. unfold by_start_desc, by_key. f_equal. lia.
Qed.

(** X5.  The battle list shows every battle of the array exactly once,
    latest start first, battles of one start time in their array order;
    it has one item per battle, and the single placeholder item when the
    array is empty. *)
Theorem displayBattleList_timeline (battles : list battle) :
  ∃ sortedBattles,
    sortedBattles ≡ₚ battles ∧
    StronglySorted (λ a b, timestamp_start b ≤ timestamp_start a) sortedBattles ∧
    (∀ k, filter (λ b, timestamp_start b = k) sortedBattles
          = filter (λ b, timestamp_start b = k) battles) ∧
    (displayBattleList battles).1 =
      match battles with
      | [] => ["No battles recorded yet."]
      | _ => li_text <$> sortedBattles
      end ∧
    length (displayBattleList battles).1 = Nat.max 1 (length battles).
Proof.
  exists (Array_sort by_start_desc battles).
  pose proof (Array_sort_Permutation by_start_desc battles) as Hp.
  split_and!; [done| | | |].
  - assert (Transitive (λ a b : battle, timestamp_start b ≤ timestamp_start a)).
    { intros a b c Hab Hbc. lia. }
    apply Array_sort_ordered; [done|..]; unfold by_start_desc; intros x y; lia.
  - intros k. apply Array_sort_keeps_ties. unfold by_start_desc. intros x y -> ->. lia.
  - unfold displayBattleList. simpl.
    destruct battles as [|b bs]; [done|].
    destruct (Array_sort by_start_desc (b :: bs)) as [|s ss] eqn:Hs; [|done].
    apply Permutation_length in Hp. done.
  - unfold displayBattleList. simpl.
    apply Permutation_length in Hp.
    destruct (Array_sort by_start_desc battles) as [|s ss]; simpl in *.
    + rewrite <- Hp. done.
    + rewrite length_fmap, <- Hp. simpl. lia.
Qed.

Lemma timeline_of_sorted (bs : list battle) :
  Array_sort by_start_desc (Array_sort by_start_asc bs) = Array_sort by_start_desc bs.
Proof.
  rewrite !by_start_desc_key.
  apply (sorted_by_groups (λ b, - timestamp_start b)); [apply Array_sort_sorted..|].
  intros k. rewrite <- !by_start_desc_key.
  rewrite !(Array_sort_keeps_ties by_start_desc).
  - apply Array_sort_keeps_ties. unfold by_start_asc. intros x y Hx Hy. lia.
  - unfold by_start_desc. intros x y Hx Hy. lia.
  - unfold by_start_desc. intros x y Hx Hy. lia.
Qed.

(** X6.  The in-place sort of the rating engine does not show in the
    battle list: drawn from the array as [calculateElo] leaves it, the
    list has the very items it has when drawn from the array as loaded. *)
Theorem timeline_after_calculateElo {num : Type} `{JsNum num} (bs : list battle) :
  ∃ (t : gmap string (elo_entry num)) order,
    calculateElo bs = Some (t, order) ∧
    (displayBattleList order).1 = (displayBattleList bs).1.
Proof.
  eexists _, _. split; [apply calculateElo_closed|].
  unfold displayBattleList. simpl. by rewrite timeline_of_sorted.
Qed.

End Timeline.

(** ** The catalogue *)


(** ** More on the rating engine *)

Section Engine.
Context {num : Type} `{JsNum num}.

Lemma slots_filled_cons n b bs :
  slots_filled n (b :: bs) =
    ((if decide (modelA b = n) then 1 else 0) + (if decide (modelB b = n) then 1 else 0)
     + slots_filled n bs)%nat.
Proof.
  unfold slots_filled. rewrite !filter_cons.
  destruct (decide (modelA b = n)), (decide (modelB b = n)); simpl; lia.
Qed.

Lemma slots_filled_Permutation n bs bs' :
  bs ≡ₚ bs' → slots_filled n bs = slots_filled n bs'.
Proof. intros Hp. unfold slots_filled. by rewrite Hp. Qed.

Lemma slots_filled_none n bs : ¬ participant n bs → slots_filled n bs = 0%nat.
Proof.
  induction bs as [|b bs IH]; intros Hn; [done|].
  rewrite participant_cons in Hn. rewrite slots_filled_cons, IH by tauto.
  rewrite !decide_False; [done|..]; intros Heq; apply Hn; left; auto.
Qed.

Lemma battlesPlayed_manual_update (f : string → elo_entry num) b n :
  battlesPlayed (manual_update f b n) =
    (battlesPlayed (f n) + (if decide (modelA b = n) then 1 else 0)
     + (if decide (modelB b = n) then 1 else 0))%nat.
Proof.
  unfold manual_update, bump.
  destruct (decide (n = modelB b)) as [->|HB], (decide (modelB b = modelA b)) as [HAB|HAB];
    simpl; repeat case_decide; simpl; try congruence; try lia.
Qed.

Lemma battlesPlayed_foldl (f : string → elo_entry num) bs n :
  battlesPlayed (foldl manual_update f bs n) = (battlesPlayed (f n) + slots_filled n bs)%nat.
Proof.
  revert f. induction bs as [|b bs IH]; intros f; simpl.
  { unfold slots_filled. simpl. lia. }
  rewrite IH, battlesPlayed_manual_update, slots_filled_cons. lia.
Qed.

(** X8.  In the returned table the [battlesPlayed] of a participant is
    the number of slots its name fills in the collection: a battle counts
    once for each of its two models, twice for a model that fills both. *)
Theorem battlesPlayed_counts_slots (bs : list battle) :
  ∃ (t : gmap string (elo_entry num)) order,
    calculateElo bs = Some (t, order) ∧
    ∀ n, (participant n bs → ∃ e, t !! n = Some e ∧ battlesPlayed e = slots_filled n bs) ∧
         (¬ participant n bs → t !! n = None ∧ slots_filled n bs = 0%nat).
Proof.
  eexists _, _. split; [apply calculateElo_closed|]. intros n.
  rewrite (lookup_calculateElo bs _ _ n (calculateElo_closed bs)).
  split; intros Hn.
  - rewrite decide_True by by apply elem_of_modelNames.
    eexists. split; [done|].
    unfold manual_ratings. rewrite battlesPlayed_foldl. simpl.
    apply slots_filled_Permutation, Array_sort_Permutation.
  - rewrite decide_False by by rewrite elem_of_modelNames.
    split; [done|]. by apply slots_filled_none.
Qed.



End Engine.

Section Slots.
Context {num : Type} `{JsNum num}.

Lemma wins_tag_inj (a b : string) : a +:+ "_wins" = b +:+ "_wins" → a = b.
Proof.
  revert b. induction a as [|c a IH]; intros [|d b] Heq; [done| | |].
  - apply (f_equal String.length) in Heq.
    rewrite app_String in Heq. simpl in Heq. rewrite length_app_string in Heq.
    simpl in Heq. lia.
  - apply (f_equal String.length) in Heq.
    rewrite app_String in Heq. simpl in Heq. rewrite length_app_string in Heq.
    simpl in Heq. lia.
  - rewrite !app_String in Heq. injection Heq as -> Heq. f_equal. by apply IH.
Qed.

Lemma scores_swap_slots (b : battle) :
  modelA b ≠ modelB b →
  scores (num := num) (swap_slots b) = ((scores b).2, (scores b).1).
Proof.
  intros Hne. unfold scores.
  change (modelA (swap_slots b)) with (modelB b).
  change (modelB (swap_slots b)) with (modelA b).
  change (battle_outcome (swap_slots b)) with (battle_outcome b).
  destruct (decide (battle_outcome b = Some (modelB b +:+ "_wins"))) as [HB|HB],
           (decide (battle_outcome b = Some (modelA b +:+ "_wins"))) as [HA|HA]; try done.
  exfalso. apply Hne. apply wins_tag_inj. congruence.
Qed.

Lemma manual_update_swap_slots (f : string → elo_entry num) b n :
  modelA b ≠ modelB b → manual_update f (swap_slots b) n = manual_update f b n.
Proof.
  intros Hne. unfold manual_update, deltaA, deltaB.
  rewrite scores_swap_slots by done.
  change (modelA (swap_slots b)) with (modelB b).
  change (modelB (swap_slots b)) with (modelA b).
  unfold bump. simpl.
  destruct (decide (n = modelA b)) as [HA|HA], (decide (n = modelB b)) as [HB|HB];
    try done. congruence.
Qed.

Lemma apply_battle_swap_slots (t : gmap string (elo_entry num)) b :
  modelA b ≠ modelB b → apply_battle t (swap_slots b) = apply_battle t b.
Proof.
  intros Hne. unfold apply_battle.
  rewrite !manual_update_swap_slots by done.
  change (modelA (swap_slots b)) with (modelB b).
  change (modelB (swap_slots b)) with (modelA b).
  by apply insert_insert_ne.
Qed.

Lemma Array_sort_fmap {A} (cmp : A → A → Z) (g : A → A) l :
  (∀ x y, cmp (g x) (g y) = cmp x y) →
  Array_sort cmp (g <$> l) = g <$> Array_sort cmp l.
Proof.
  intros Hg. induction l as [|x l IH]; [done|].
  rewrite fmap_cons. simpl. rewrite IH.
  generalize (Array_sort cmp l). intros k.
  induction k as [|y k IHk]; [done|].
  rewrite fmap_cons. cbn [sort_insert]. rewrite Hg.
  destruct (0 <? cmp x y); [|done]. by rewrite fmap_cons, IHk.
Qed.

Lemma participant_swap_slots n bs :
  participant n (swap_slots <$> bs) ↔ participant n bs.
Proof.
  split.
  - intros (b & (b0 & -> & Hb0)%list_elem_of_fmap & Hn). exists b0. split; [done|].
    unfold modelA, modelB in *. simpl in Hn. tauto.
  - intros (b & Hb & Hn). exists (swap_slots b).
    split; [by apply list_elem_of_fmap_2|].
    unfold modelA, modelB in *. simpl. tauto.
Qed.

(** X10.  Which of the two models of a battle is listed in slot A and which
    in slot B has no influence on the ratings: exchanging the slots in
    every battle gives the same table. *)
Theorem slots_symmetric (bs : list battle) :
  (∀ b, b ∈ bs → modelA b ≠ modelB b) →
  ∃ (t : gmap string (elo_entry num)) order,
    calculateElo bs = Some (t, order) ∧
    calculateElo (swap_slots <$> bs) = Some (t, swap_slots <$> order).
Proof.
  intros Hne. eexists _, _. split; [apply calculateElo_closed|].
  rewrite calculateElo_closed.
  rewrite (Array_sort_fmap by_start_asc swap_slots) by done.
  assert (Hinit : init_eloScores (num := num) (modelNames (swap_slots <$> bs))
                  = init_eloScores (modelNames bs)).
  { apply init_eloScores_Permutation.
    apply NoDup_Permutation; [apply NoDup_modelNames..|].
    intros n. by rewrite !elem_of_modelNames, participant_swap_slots. }
  rewrite Hinit. f_equal. f_equal.
  assert (Hall : ∀ b, b ∈ Array_sort by_start_asc bs → modelA b ≠ modelB b).
  { intros b Hb. apply Hne. by rewrite <- (Array_sort_Permutation by_start_asc bs). }
  revert Hall. generalize (init_eloScores (num := num) (modelNames bs)).
  generalize (Array_sort by_start_asc bs). clear.
  intros l. induction l as [|b l IH]; intros t Hall; [done|].
  rewrite fmap_cons. simpl. rewrite apply_battle_swap_slots by (apply Hall; left).
  apply IH. intros b' Hb'. apply Hall. by right.
Qed.

End Slots.

Section ExactEngine.
Local Open Scope R_scope.

Lemma scores_cases (b : battle) :
  scores (num := R) b = (1, 0) ∨ scores (num := R) b = (0, 1)
  ∨ scores (num := R) b = (1 / 2, 1 / 2).
Proof. unfold scores. repeat case_decide; auto. Qed.

Lemma delta_bounds (f : string → elo_entry R) (b : battle) :
  -32 < deltaA f b < 32 ∧ -32 < deltaB f b < 32.
Proof.
  pose proof (expected_bounds (rating (f (modelA b))) (rating (f (modelB b)))) as HA.
  pose proof (expected_bounds (rating (f (modelB b))) (rating (f (modelA b)))) as HB.
  rewrite expected_R in HA, HB. unfold deltaA, deltaB, ELO_K_FACTOR.
  destruct (scores_cases b) as [->|[->| ->]]; simpl; lra.
Qed.

Lemma within_K_manual_update f b : within_K f → within_K (manual_update f b).
Proof.
  intros Hf n. pose proof (Hf n) as Hn.
  destruct (delta_bounds f b) as [HdA HdB].
  pose proof (deltas_opposite f b) as Hd.
  pose proof (manual_update_self f b) as Hself.
  pose proof (manual_update_A f b) as HupdA.
  pose proof (manual_update_B f b) as HupdB.
  set (dA := deltaA f b) in *. set (dB := deltaB f b) in *. clearbody dA dB.
  destruct (decide (modelA b = modelB b)) as [Heq|Hne].
  - destruct (decide (n = modelB b)) as [->|HnB].
    + rewrite Hself by done. cbn [rating battlesPlayed].
      rewrite !S_INR. simpl. lra.
    + rewrite manual_update_other by congruence. done.
  - destruct (decide (n = modelA b)) as [->|HnA]; [|destruct (decide (n = modelB b)) as [->|HnB]].
    + rewrite HupdA by done. cbn [rating battlesPlayed].
      rewrite S_INR. simpl. lra.
    + rewrite HupdB by done. cbn [rating battlesPlayed].
      rewrite S_INR. simpl. lra.
    + by rewrite manual_update_other.
Qed.

Lemma within_K_manual_ratings bs : within_K (manual_ratings bs).
Proof.
  unfold manual_ratings.
  assert (Hgen : ∀ f, within_K f → within_K (foldl manual_update f bs)).
  { induction bs as [|b bs IH]; intros f Hf; simpl; [done|].
    by apply IH, within_K_manual_update. }
  apply Hgen. intros n. unfold fresh_entry, ELO_DEFAULT_RATING. simpl. lra.
Qed.

(** X11.  In exact arithmetic no returned rating is further from the
    default 1500 than 32 points (the K-factor) for each game its entry
    counts. *)
Theorem rating_within_K_per_game (bs : list battle) :
  ∃ (t : gmap string (elo_entry R)) order,
    calculateElo bs = Some (t, order) ∧
    ∀ n e, t !! n = Some e →
      1500 - 32 * INR (battlesPlayed e) <= rating e <= 1500 + 32 * INR (battlesPlayed e).
Proof.
  eexists _, _. split; [apply calculateElo_closed|]. intros n e.
  rewrite (lookup_calculateElo bs _ _ n (calculateElo_closed bs)).
  case_decide; [|done]. intros [= <-]. apply within_K_manual_ratings.
Qed.

(** X12.  In a decided battle between two different models the winner's
    rating goes up and the loser's goes down, in exact arithmetic, whatever
    the two ratings were. *)
Theorem winner_gains_loser_loses (t : gmap string (elo_entry R)) (b : battle) :
  modelA b ≠ modelB b →
  ∃ t', process_battle t b = Some t' ∧
    (battle_outcome b = Some (modelA b +:+ "_wins") →
       rating (entry_of t (modelA b)) < rating (entry_of t' (modelA b)) ∧
       rating (entry_of t' (modelB b)) < rating (entry_of t (modelB b))) ∧
    (battle_outcome b = Some (modelB b +:+ "_wins") →
       rating (entry_of t' (modelA b)) < rating (entry_of t (modelA b)) ∧
       rating (entry_of t (modelB b)) < rating (entry_of t' (modelB b))).
Proof.
  intros Hne. eexists. split; [apply process_battle_closed|].
  rewrite entry_of_insert_ne, !entry_of_insert_eq by done.
  rewrite manual_update_A, manual_update_B by done. simpl.
  pose proof (expected_bounds (rating (entry_of t (modelA b)))
                (rating (entry_of t (modelB b)))) as HA.
  pose proof (expected_bounds (rating (entry_of t (modelB b)))
                (rating (entry_of t (modelA b)))) as HB.
  rewrite expected_R in HA, HB.
  unfold deltaA, deltaB, ELO_K_FACTOR, scores. split; intros Ho.
  - rewrite decide_True by done. simpl. lra.
  - rewrite decide_False, decide_True; [simpl; lra|done|].
    rewrite Ho. intros [= Heq]. apply Hne. symmetry. by apply wins_tag_inj.
Qed.


End ExactEngine.

(** ** The leaderboard *)

Section Leaderboard.
Context {num : Type} `{JsNum num} `{JsNumView num}.

Lemma displayEloTable_rows (entries : list (string * elo_entry num)) :
  entries ≠ [] →
  displayEloTable entries = imap elo_row_of (Array_sort by_rating_desc entries).
Proof.
  intros Hne. unfold displayEloTable.
  pose proof (Array_sort_Permutation by_rating_desc entries) as Hp.
  destruct (Array_sort by_rating_desc entries) as [|e es] eqn:Hs.
  { apply Permutation_nil_l in Hp. by subst. }
  apply imap_ext. by intros i [name data] _.
Qed.

(** X14.  The leaderboard has one row for every entry of the table and no
    other row: counting from the top, the row at position [i] carries rank
    [i + 1] and the name, rounded rating and games of one entry, each entry
    being used once.  Only for an empty table does it show the single
    message row. *)
Theorem leaderboard_rows (entries : list (string * elo_entry num)) :
  displayEloTable [] = [MessageRow "No ELO data available. Run battles to generate scores."] ∧
  ∃ sortedModels,
    sortedModels ≡ₚ entries ∧
    length (displayEloTable entries) = Nat.max 1 (length entries) ∧
    ∀ i entry, sortedModels !! i = Some entry →
      displayEloTable entries !! i
        = Some (ModelRow (i + 1) entry.1 (Math_round (rating entry.2)) (battlesPlayed entry.2)).
Proof.
  split; [done|].
  exists (Array_sort by_rating_desc entries).
  pose proof (Array_sort_Permutation by_rating_desc entries) as Hp.
  split; [done|].
  destruct entries as [|e es].
  { split; [done|]. intros i entry Hi. simpl in Hi. by rewrite lookup_nil in Hi. }
  rewrite displayEloTable_rows by done. split.
  - rewrite length_imap, Hp. simpl. lia.
  - intros i entry Hi. by rewrite list_lookup_imap, Hi.
Qed.

End Leaderboard.

Section ExactLeaderboard.
Local Open Scope R_scope.

Lemma R_sgn_pos (x : R) : (0 < R_sgn x)%Z ↔ 0 < x.
Proof.
  unfold R_sgn. destruct (total_order_T 0 x) as [[Hlt|Heq]|Hgt]; split; try lia; lra.
Qed.

Lemma Math_round_mono (x y : R) : x <= y → Math_round x <= Math_round y.
Proof.
  intros Hxy. simpl. apply IZR_le.
  destruct (base_Int_part (x + 1 / 2)) as [Hx1 Hx2].
  destruct (base_Int_part (y + 1 / 2)) as [Hy1 Hy2].
  destruct (Z_le_gt_dec (Int_part (x + 1 / 2)) (Int_part (y + 1 / 2))) as [Hle|Hgt]; [done|].
  exfalso. assert (Int_part (y + 1 / 2) + 1 ≤ Int_part (x + 1 / 2))%Z as Hz by lia.
  apply IZR_le in Hz. rewrite plus_IZR in Hz. lra.
Qed.

(** X15.  In exact arithmetic the leaderboard is sorted: the rating never
    increases from one row to the next, nor does the rounded rating that
    is shown, and entries of equal rating stay in the order in which the
    table object lists them. *)
Theorem leaderboard_descending (entries : list (string * elo_entry R)) :
  ∃ sortedModels,
    sortedModels ≡ₚ entries ∧
    StronglySorted (λ a b, rating b.2 <= rating a.2) sortedModels ∧
    StronglySorted (λ a b, Math_round (rating b.2) <= Math_round (rating a.2)) sortedModels ∧
    (∀ r, filter (λ a, rating a.2 = r) sortedModels = filter (λ a, rating a.2 = r) entries) ∧
    (entries ≠ [] → displayEloTable entries = imap elo_row_of sortedModels).
Proof.
  exists (Array_sort by_rating_desc entries).
  assert (Hsorted : StronglySorted (λ a b : string * elo_entry R, rating b.2 <= rating a.2)
                      (Array_sort by_rating_desc entries)).
  { assert (Transitive (λ a b : string * elo_entry R, rating b.2 <= rating a.2)).
    { intros a b c Hab Hbc. lra. }
    apply Array_sort_ordered; [done|..]; unfold by_rating_desc; simpl; intros x y Hc.
    - apply R_sgn_pos in Hc. lra.
    - destruct (Rle_lt_dec (rating y.2) (rating x.2)) as [Hle|Hlt]; [done|].
      exfalso. assert (0 < R_sgn (rating y.2 - rating x.2))%Z; [|lia].
      apply R_sgn_pos. lra. }
  split_and!.
  - apply Array_sort_Permutation.
  - done.
  - clear -Hsorted. induction Hsorted as [|x l Hl IH Hx]; constructor; [done|].
    eapply Forall_impl; [exact Hx|]. intros y Hy. by apply Math_round_mono.
  - intros r. apply Array_sort_keeps_ties. intros x y Hx Hy.
    unfold by_rating_desc. simpl. rewrite Hx, Hy.
    assert (¬ (0 < R_sgn (r - r))%Z); [|lia]. rewrite R_sgn_pos. lra.
  - apply displayEloTable_rows.
Qed.

End ExactLeaderboard.

(** ** Loading the page *)

Section Init.
Context {num : Type} `{JsNum num} `{JsNumView num}.
Variable Object_entries : gmap string (elo_entry num) → list (string * elo_entry num).

(** X16.  Whenever the load delivers no battle (the fetch fails, the
    status is not ok, 404 included, the body is not valid JSON, or the
    array is empty) the page ends up with the single message row in the
    leaderboard, the single placeholder item in the battle list and the
    no-data text in the details element: the load-error text [fetchData]
    may have written there does not survive [init]. *)
Theorem init_without_battles (fetched : option response) (p : page num) :
  (∀ r b bs, fetched = Some r → ok r = true → json r ≠ Some (b :: bs)) →
  init Object_entries fetched p =
    Some {| page_table := [MessageRow "No ELO data available. Run battles to generate scores."];
            page_list := ["No battles recorded yet."];
            page_details := no_data |}.
Proof.
  intros Hnone. unfold init, fetchData.
  destruct fetched as [r|]; [|done].
  destruct (ok r) eqn:Hok; [|by destruct (status r =? 404)].
  destruct (json r) as [[|b bs]|] eqn:Hj; [done| |done].
  by destruct (Hnone r b bs).
Qed.

Lemma init_loaded (r : response) (bs : list battle) (p : page num) t order :
  ok r = true → json r = Some bs → bs ≠ [] → calculateElo bs = Some (t, order) →
  init Object_entries (Some r) p =
    Some {| page_table := displayEloTable (Object_entries t);
            page_list := (displayBattleList order).1;
            page_details := page_details p |}.
Proof.
  intros Hok Hj Hne Hc. unfold init, fetchData. rewrite Hok, Hj.
  destruct bs as [|b0 bs0]; [done|]. by rewrite Hc.
Qed.

(** X17.  When an ok response holds a non-empty array, [init] raises no
    error and leaves the details element as it was; the battle list is the
    timeline of the array as loaded, one item per battle; the leaderboard
    has exactly one row for each participant. *)
Theorem init_with_battles (r : response) (bs : list battle) (p : page num) :
  (∀ t, Object_entries t ≡ₚ map_to_list t) →
  ok r = true → json r = Some bs → bs ≠ [] →
  ∃ page',
    init Object_entries (Some r) p = Some page' ∧
    page_details page' = page_details p ∧
    page_list page' = (displayBattleList bs).1 ∧
    length (page_list page') = length bs ∧
    length (page_table page') = length (modelNames bs) ∧
    ∀ n, participant n bs ↔
         ∃ rank shown played, ModelRow rank n shown played ∈ page_table page'.
Proof.
  intros Hentries Hok Hj Hne.
  pose proof (calculateElo_closed (num := num) bs) as Hc.
  set (t := foldl apply_battle _ _) in Hc.
  eexists. split; [by apply (init_loaded r bs p t _ Hok Hj Hne Hc)|].
  cbn [page_table page_list page_details].
  pose proof (size_calculateElo bs t _ Hc) as Hsize.
  pose proof (λ n, lookup_calculateElo bs t _ n Hc) as Hlook.
  assert (Hlen : length (Object_entries t) = length (modelNames bs)).
  { by rewrite Hentries, length_map_to_list. }
  assert (Hnonempty : Object_entries t ≠ []).
  { intros Heq. rewrite Heq in Hlen. simpl in Hlen.
    destruct bs as [|b0 bs0]; [done|].
    assert (modelA b0 ∈ modelNames (b0 :: bs0)) as Hin.
    { apply elem_of_modelNames. exists b0. split; [left|by left]. }
    destruct (modelNames (b0 :: bs0)); [by apply elem_of_nil in Hin|done]. }
  assert (Hlist : (displayBattleList (Array_sort by_start_asc bs)).1 = (displayBattleList bs).1).
  { unfold displayBattleList. cbn [fst]. by rewrite timeline_of_sorted. }
  split_and!.
  - done.
  - done.
  - rewrite Hlist.
    destruct (displayBattleList_timeline bs) as (_ & _ & _ & _ & _ & ->).
    destruct bs; [done|]. simpl. lia.
  - rewrite displayEloTable_rows by done.
    by rewrite length_imap, (Array_sort_Permutation by_rating_desc).
  - intros n. rewrite displayEloTable_rows by done. split.
    + intros Hn%elem_of_modelNames. specialize (Hlook n). rewrite decide_True in Hlook by done.
      apply elem_of_map_to_list in Hlook. rewrite <- Hentries in Hlook.
      rewrite <- (Array_sort_Permutation by_rating_desc) in Hlook.
      apply list_elem_of_lookup in Hlook as [i Hi].
      eexists _, _, _. by apply (elem_of_lookup_imap_2 elo_row_of _ _ i Hi).
    + intros (rank & shown & played & (i & [n' e] & Hrow & Hi)%elem_of_lookup_imap).
      injection Hrow as _ -> _ _.
      apply list_elem_of_lookup_2 in Hi.
      rewrite (Array_sort_Permutation by_rating_desc), Hentries in Hi.
      apply elem_of_map_to_list in Hi. specialize (Hlook n'). rewrite Hi in Hlook.
      case_decide as Hn; [by apply elem_of_modelNames|done].
Qed.

End Init.

(** ** The array after the rating computation *)


(** * The further properties at concrete inputs *)

Lemma escapeHtml_inj_witness :
  escapeHtml "<b>Tom & Jerry</b>" = "&lt;b&gt;Tom &amp; Jerry&lt;/b&gt;" ∧
  "<b>Tom & Jerry</b>" = "<b>Tom & Jerry</b>".
Proof.
  split; [reflexivity|]. apply (escapeHtml_inj "<b>Tom & Jerry</b>" "<b>Tom & Jerry</b>").
  reflexivity.
Defined.


Lemma slots_symmetric_witness :
  let bs := [game "g1" "X" "Y" 1000 (Some "X_wins"); game "g2" "Y" "Z" 2000 None] in
  ∃ (t : gmap string (elo_entry R)) order,
    calculateElo bs = Some (t, order) ∧
    calculateElo (swap_slots <$> bs) = Some (t, swap_slots <$> order).
Proof.
  intros bs. apply (slots_symmetric (num := R) bs).
  intros b Hb.
  repeat (apply elem_of_cons in Hb as [->|Hb]; [discriminate|]).
  by apply elem_of_nil in Hb.
Defined.

Lemma winner_gains_loser_loses_witness :
  let b := game "g1" "X" "Y" 1000 (Some "X_wins") in
  ∃ t', process_battle (num := R) ∅ b = Some t' ∧
        (rating (entry_of (num := R) ∅ "X") < rating (entry_of t' "X"))%R.
Proof.
  intros b.
  destruct (winner_gains_loser_loses ∅ b) as (t' & Ht' & HA & _).
  - discriminate.
  - exists t'. split; [exact Ht'|]. apply HA. reflexivity.
Defined.


Lemma init_without_battles_witness :
  init (num := R) map_to_list (Some {| status := 500; json := None |})
       {| page_table := []; page_list := []; page_details := "<p>Select a battle.</p>" |}
  = Some {| page_table := [MessageRow "No ELO data available. Run battles to generate scores."];
            page_list := ["No battles recorded yet."];
            page_details := no_data |}.
Proof.
  apply (init_without_battles (num := R) map_to_list).
  intros r b bs [= <-] Hok. discriminate Hok.
Defined.

Lemma init_with_battles_witness :
  let bs := [game "g1" "X" "Y" 1000 (Some "X_wins")] in
  let p := {| page_table := []; page_list := [];
              page_details := "<p>Select a battle.</p>" |} in
  ∃ page',
    init (num := R) map_to_list (Some {| status := 200; json := Some bs |}) p = Some page' ∧
    page_details page' = "<p>Select a battle.</p>" ∧
    length (page_table page') = length (modelNames bs).
Proof.
  intros bs p.
  destruct (init_with_battles (num := R) map_to_list
              {| status := 200; json := Some bs |} bs p)
    as (page' & Hi & Hd & _ & _ & Ht & _).
  - intros t. reflexivity.
  - reflexivity.
  - reflexivity.
  - discriminate.
  - exists page'. split; [exact Hi|]. split; [exact Hd|exact Ht].
Defined.
